(** * Inspektor Gadget: the trace orchestrator and the tcpconnect tracer

    A shallow embedding of
      - cmd/kubectl-gadget/utils/trace.go          (module [utils])
      - pkg/gadgets/trace/tcpconnect/tracer/tracer.go (module [tracer])
      - pkg/gadgets/trace/capabilities/tracer/capabilities_x86_bpfel.go,
        the [Close] methods                        (module [capabilities])
    and the properties of their error handling and reporting.

    Conventions of the embedding.
      - A Go [string] is a [string]; a Go [error] is its message, [nil]
        is [None].  [fmt.Errorf("... %w", err)] is the concatenation of
        the prefix and the message of the wrapped error.
      - A Go [map[string]string] is a [gmap string string].  Go leaves
        the order of a [range] over a map unspecified: every [range] is
        given its order by a [RangeOrder], and the theorems hold for all
        of them.
      - Everything the code gets from outside (the control plane, the
        kernel, the clock, the random source) is an oracle of an
        environment record; the state the calls act on is threaded
        explicitly. *)

From stdpp Require Import base gmap strings list pretty.
From Stdlib Require Import NArith ZArith Lia.

(* stdpp's [naive_solver] clears hypotheses that may be gone already. *)
Set Warnings "-clear-no-such-hyp".

(** ** The part of the Go runtime both packages rely on *)

(** The order in which one [range] statement visits a map: some
    enumeration of its entries. *)
Record RangeOrder := {
  range_of : gmap string string → list (string * string);
  range_of_perm : ∀ m, range_of m ≡ₚ map_to_list m
}.

(** What the embedding takes from the runtime: the [%q] verb of [fmt]
    on a string, and the order of each [range] over a map. *)
Record GoRuntime := {
  fmt_q : string → string;
  range_getIdenticalValue : RangeOrder;
  range_printTraceFeedback : RangeOrder
}.

Definition newline : string := String (Ascii.ascii_of_nat 10) EmptyString.

Module utils.

(** *** Constants *)

Definition GADGET_OPERATION : string := "gadget.kinvolk.io/operation".
Definition GLOBAL_TRACE_ID : string := "global-trace-id".
(** [traceTimeout = 2 * time.Second], in nanoseconds. *)
Definition traceTimeout : N := 2000000000.
(** [fmt.Sprintf("%v", traceTimeout)]: [time.Duration]'s [String]. *)
Definition traceTimeout_v : string := "2s".
(** [100 * time.Millisecond], in nanoseconds. *)
Definition pollInterval : N := 100000000.

(** *** Data *)

(** The fields of [CommonFlags] that [CreateTrace] reads. *)
Record CommonFlags := {
  flags_Node : string;
  flags_Namespace : string;
  flags_Podname : string;
  flags_Containername : string;
  flags_Labels : gmap string string
}.

Record TraceConfig := {
  GadgetName : string;
  Operation : string;
  TraceOutputMode : string;
  TraceOutputState : string;
  TraceOutput : string;
  TraceInitialState : string;
  CommonFlags_ : CommonFlags
}.

(** [gadgetv1alpha1.ContainerFilter] *)
Record ContainerFilter := {
  filter_Namespace : string;
  filter_Podname : string;
  filter_ContainerName : string;
  filter_Labels : gmap string string
}.

(** [gadgetv1alpha1.TraceSpec]; [Filter] is a pointer, [None] is [nil]. *)
Record TraceSpec := {
  Node : string;
  Gadget : string;
  Filter : option ContainerFilter;
  RunMode : string;
  OutputMode : string;
  Output : string
}.

(** [gadgetv1alpha1.TraceStatus], the fields [waitForTraceState] reads. *)
Record TraceStatus := {
  State : string;
  OperationError : string;
  OperationWarning : string
}.

Record ObjectMeta := {
  GenerateName : string;
  Namespace : string;
  Annotations : gmap string string;
  Labels : gmap string string
}.

Record Trace := {
  ObjectMeta_ : ObjectMeta;
  Spec : TraceSpec;
  Status : TraceStatus
}.

Definition emptyStatus : TraceStatus :=
  {| State := ""; OperationError := ""; OperationWarning := "" |}.

(** [trace.Spec.Node = name] *)
Definition setNode (name : string) (t : Trace) : Trace :=
  {| ObjectMeta_ := ObjectMeta_ t;
     Spec := {| Node := name; Gadget := Gadget (Spec t); Filter := Filter (Spec t);
                RunMode := RunMode (Spec t); OutputMode := OutputMode (Spec t);
                Output := Output (Spec t) |};
     Status := Status t |}.

Definition setStatus (s : TraceStatus) (t : Trace) : Trace :=
  {| ObjectMeta_ := ObjectMeta_ t; Spec := Spec t; Status := s |}.

(** *** getIdenticalValue and printTraceFeedback *)

(** The loop of [getIdenticalValue] over the values in the order of the
    [range]; [value] is the local variable of the same name. *)
Fixpoint getIdenticalValue_loop (value : string) (vs : list string) : string :=
  match vs with
  | [] => value
  | v :: vs' =>
      if decide (value = "") then getIdenticalValue_loop v vs'
      else if decide (value ≠ v) then ""
      else getIdenticalValue_loop value vs'
  end.

Definition getIdenticalValue (rt : GoRuntime) (m : gmap string string) : string :=
  getIdenticalValue_loop "" (range_of (range_getIdenticalValue rt) m).*2.

Definition allNodesLine (value : string) : string :=
  "Failed to run the gadget on all nodes: " +:+ value +:+ newline.

Definition nodeLine (rt : GoRuntime) (entry : string * string) : string :=
  "Failed to run the gadget on node " +:+ fmt_q rt entry.1 +:+ ": " +:+ entry.2 +:+ newline.

(** The lines [printTraceFeedback] writes to [os.Stderr]. *)
Definition printTraceFeedback (rt : GoRuntime) (m : gmap string string) (totalNodes : nat)
  : list string :=
  let perNode := nodeLine rt <$> range_of (range_printTraceFeedback rt) m in
  if bool_decide (1 < size m) && bool_decide (size m = totalNodes) then
    let value := getIdenticalValue rt m in
    if decide (value ≠ "") then [allNodesLine value] else perNode
  else perNode.

(** *** The world outside the process

    [Env] holds the answers of everything outside the process; the
    [n]-th request made by the process gets the [n]-th answer.  The
    control plane is modelled by the list of trace copies it stores: a
    create call that succeeds adds its body, a create or delete call that
    fails changes nothing, a delete call that succeeds removes the copies
    of namespace [gadget] that the label selector matches.  The node
    agents fill in the status of a copy: a read of a copy made by request
    [n] sees the status [agent n] gives it. *)
Record Env := {
  runtime : GoRuntime;
  rand_Int31 : nat → N;
  kubeRestConfig : nat → option string;
  UnversionedRESTClientFor : nat → option string;
  NewClientsetFromConfigFlags : nat → option string;
  Nodes_List : nat → string + list string;
  Post_Error : nat → Trace → option string;
  Delete_Error : nat → option string;
  Get_Error : nat → option string;
  agent : nat → Trace → TraceStatus;
  latency : nat → N
}.

(** The state the process acts on: the requests and random draws made so
    far, the wall clock in nanoseconds, the copies the control plane
    stores, and what was written to [os.Stderr]. *)
Record World := {
  requests : nat;
  draws : nat;
  clock : N;
  traces : list Trace;
  stderr : list string
}.

Definition M (A : Type) : Type := World → A * World.

Definition ret {A} (a : A) : M A := λ w, (a, w).

Definition bind {A B} (m : M A) (k : A → M B) : M B :=
  λ w, let r := m w in k r.1 r.2.

Notation "x <- m ;; k" := (bind m (λ x, k))
  (at level 100, m at next level, right associativity, only parsing).
Notation "m ;;; k" := (bind m (λ _, k))
  (at level 100, right associativity, only parsing).

Section Orchestrator.

Context (env : Env).

(** One request to the outside: its index, and the time it takes. *)
Definition request : M nat := λ w,
  (requests w,
   {| requests := S (requests w); draws := draws w;
      clock := clock w + latency env (requests w);
      traces := traces w; stderr := stderr w |}).

(** [time.Sleep(d)] *)
Definition sleep (d : N) : M unit := λ w,
  (tt, {| requests := requests w; draws := draws w; clock := clock w + d;
          traces := traces w; stderr := stderr w |}).

Definition now : M N := λ w, (clock w, w).

(** [fmt.Fprintf(os.Stderr, ...)] of the given lines *)
Definition eprint (lines : list string) : M unit := λ w,
  (tt, {| requests := requests w; draws := draws w; clock := clock w;
          traces := traces w; stderr := stderr w ++ lines |}).

Definition setTraces (f : list Trace → list Trace) : M unit := λ w,
  (tt, {| requests := requests w; draws := draws w; clock := clock w;
          traces := f (traces w); stderr := stderr w |}).

(** [rand.Int31n(n)] *)
Definition Int31n (n : N) : M N := λ w,
  ((rand_Int31 env (draws w) `mod` n)%N,
   {| requests := requests w; draws := S (draws w); clock := clock w;
      traces := traces w; stderr := stderr w |}).

Definition allowedCharacters : string :=
  "0123456789abcdefghijklmnopqrstuvwxyzABCDEFGHIJKLMNOPQRSTUVWXYZ".

(** [allowedCharacters[i]]; the index is always in range. *)
Definition charAt (i : N) : Ascii.ascii :=
  default Ascii.zero (String.get (N.to_nat i) allowedCharacters).

Fixpoint randomTraceID_loop (n : nat) : M string :=
  match n with
  | O => ret ""
  | S n' =>
      i <- Int31n (N.of_nat (String.length allowedCharacters));;
      rest <- randomTraceID_loop n';;
      ret (String (charAt i) rest)
  end.

Definition randomTraceID : M string := randomTraceID_loop 16.

(** A copy is selected by [GLOBAL_TRACE_ID=traceID] in namespace
    [gadget]. *)
Definition selected (traceID : string) (t : Trace) : bool :=
  bool_decide (Namespace (ObjectMeta_ t) = "gadget") &&
  bool_decide (Labels (ObjectMeta_ t) !! GLOBAL_TRACE_ID = Some traceID).

(** What [deleteTraces] writes to [os.Stderr] when the delete call
    fails (no newline in the format). *)
Definition deleteErrorLine (err : string) : string :=
  "Error deleting traces: " +:+ fmt_q (runtime env) err.

Definition deleteTraces (traceID : string) : M unit :=
  n <- request;;
  match Delete_Error env n with
  | Some err => eprint [deleteErrorLine err]
  | None => setTraces (filter (λ t, ¬ selected traceID t))
  end.

Definition getRestClient : M (option string) :=
  n <- request;;
  match kubeRestConfig env n with
  | Some err => ret (Some ("Error while getting rest config: " +:+ err))
  | None =>
      n' <- request;;
      match UnversionedRESTClientFor env n' with
      | Some err => ret (Some ("Error setting up trace REST client: " +:+ err))
      | None => ret None
      end
  end.

(** The loop of [createTraces] over [nodes.Items]; [trace] is the object
    the pointer refers to, whose [Spec.Node] the loop overwrites. *)
Fixpoint createTraces_loop (traceNode : string) (trace : Trace) (nodes : list string)
  : M (option string) :=
  match nodes with
  | [] => ret None
  | node :: rest =>
      if bool_decide (traceNode ≠ "") && bool_decide (node ≠ traceNode)
      then createTraces_loop traceNode trace rest
      else
        let trace := if decide (traceNode = "") then setNode node trace else trace in
        n <- request;;
        match Post_Error env n trace with
        | Some err =>
            match Labels (ObjectMeta_ trace) !! GLOBAL_TRACE_ID with
            | Some traceID => deleteTraces traceID
            | None => ret tt
            end;;;
            ret (Some ("Error creating trace on node " +:+ fmt_q (runtime env) node
                       +:+ ": " +:+ err))
        | None =>
            setTraces (λ ts, ts ++ [trace]);;;
            createTraces_loop traceNode trace rest
        end
  end.

Definition createTraces (trace : Trace) : M (option string) :=
  n <- request;;
  match NewClientsetFromConfigFlags env n with
  | Some err => ret (Some ("Error setting up Kubernetes client: " +:+ err))
  | None =>
      n' <- request;;
      match Nodes_List env n' with
      | inl err => ret (Some ("Error listing nodes: " +:+ err))
      | inr nodes =>
          r <- getRestClient;;
          match r with
          | Some err => ret (Some ("Error setting up trace REST client: " +:+ err))
          | None => createTraces_loop (Node (Spec trace)) trace nodes
          end
      end
  end.

(** [getTraceListFromOptions] for the selector [GLOBAL_TRACE_ID=traceID] *)
Definition getTraceListFromOptions (traceID : string) : M (list Trace * option string) :=
  r <- getRestClient;;
  match r with
  | Some err => ret ([], Some err)
  | None =>
      n <- request;;
      match Get_Error env n with
      | Some err => ret ([], Some err)
      | None =>
          λ w, ((map (λ t, setStatus (agent env n t) t)
                   (filter (λ t, selected traceID t) (traces w)), None), w)
      end
  end.

Definition getTraceListFromID (traceID : string) : M (list Trace * option string) :=
  r <- getTraceListFromOptions traceID;;
  match r.2 with
  | Some err =>
      ret (r.1, Some ("Error getting traces from traceID " +:+ fmt_q (runtime env) traceID
                      +:+ ": " +:+ err))
  | None =>
      if decide (length r.1 = 0)
      then ret (r.1, Some ("No traces found for traceID " +:+ fmt_q (runtime env) traceID +:+ "!"))
      else ret (r.1, None)
  end.

(** The three locals of one round of [waitForTraceState]. *)
Record Round := {
  successNodeCount : nat;
  nodeErrors : gmap string string;
  nodeWarnings : gmap string string
}.

Definition newRound : Round :=
  {| successNodeCount := 0; nodeErrors := ∅; nodeWarnings := ∅ |}.

Definition noResultsMessage : string :=
  "No results received from trace within " +:+ traceTimeout_v.

Definition noneSucceeded : string :=
  "Failed to run the gadget on all nodes: None of them succeeded".

(** The loop over [traces.Items] of one round; [None] is
    [continue RetryLoop]. *)
Fixpoint classify (expectedState : string) (timeout : bool) (items : list Trace) (r : Round)
  : option Round :=
  match items with
  | [] => Some r
  | i :: rest =>
      if decide (OperationError (Status i) ≠ "") then
        classify expectedState timeout rest
          {| successNodeCount := successNodeCount r;
             nodeErrors := <[Node (Spec i) := OperationError (Status i)]> (nodeErrors r);
             nodeWarnings := nodeWarnings r |}
      else if decide (OperationWarning (Status i) ≠ "") then
        classify expectedState timeout rest
          {| successNodeCount := successNodeCount r;
             nodeErrors := nodeErrors r;
             nodeWarnings := <[Node (Spec i) := OperationWarning (Status i)]> (nodeWarnings r) |}
      else if decide (State (Status i) = expectedState) then
        classify expectedState timeout rest
          {| successNodeCount := S (successNodeCount r);
             nodeErrors := nodeErrors r;
             nodeWarnings := nodeWarnings r |}
      else if timeout then
        classify expectedState timeout rest
          {| successNodeCount := successNodeCount r;
             nodeErrors := <[Node (Spec i) := noResultsMessage]> (nodeErrors r);
             nodeWarnings := nodeWarnings r |}
      else None
  end.

(** What follows the loop over the items: the deferred print of the
    errors runs when the function returns, after the warnings. *)
Definition finishRound (items : list Trace) (r : Round) : M (list Trace * option string) :=
  if decide (successNodeCount r = 0) then
    eprint (printTraceFeedback (runtime env) (nodeWarnings r) (length items));;;
    eprint (printTraceFeedback (runtime env) (nodeErrors r) (length items));;;
    ret ([], Some noneSucceeded)
  else
    eprint (printTraceFeedback (runtime env) (nodeErrors r) (length items));;;
    ret (items, None).

(** One round of [RetryLoop]; [None] is [continue RetryLoop], after the
    sleep. *)
Definition waitForTraceState_round (start : N) (traceID expectedState : string)
  : M (option (list Trace * option string)) :=
  t <- now;;
  let timeout := bool_decide (traceTimeout < t - start)%N in
  r <- getTraceListFromID traceID;;
  match r.2 with
  | Some err => ret (Some ([], Some err))
  | None =>
      match classify expectedState timeout r.1 newRound with
      | None => sleep pollInterval;;; ret None
      | Some rd => res <- finishRound r.1 rd;; ret (Some res)
      end
  end.

(** [RetryLoop]; [rounds] bounds the number of rounds, [None] is a loop
    that has not returned within them. *)
Fixpoint waitForTraceState_loop (rounds : nat) (start : N) (traceID expectedState : string)
  : M (option (list Trace * option string)) :=
  match rounds with
  | O => ret None
  | S rounds' =>
      r <- waitForTraceState_round start traceID expectedState;;
      match r with
      | Some res => ret (Some res)
      | None => waitForTraceState_loop rounds' start traceID expectedState
      end
  end.

(** A round that starts more than [traceTimeout] after [start] returns,
    and a retry sleeps [pollInterval]: the loop runs at most this many
    rounds. *)
Definition maxRounds : nat := 22.

Definition waitForTraceState (traceID expectedState : string)
  : M (option (list Trace * option string)) :=
  start <- now;;
  waitForTraceState_loop maxRounds start traceID expectedState.

Definition DeleteTrace (traceID : string) : M (option string) :=
  r <- getRestClient;;
  match r with
  | Some err => ret (Some err)
  | None => deleteTraces traceID;;; ret None
  end.

(** The filter [CreateTrace] puts into the trace. *)
Definition CreateTrace_filter (config : TraceConfig) : option ContainerFilter :=
  let flags := CommonFlags_ config in
  if bool_decide (flags_Namespace flags ≠ "") || bool_decide (flags_Podname flags ≠ "") ||
     bool_decide (flags_Containername flags ≠ "") || bool_decide (0 < size (flags_Labels flags))
  then Some {| filter_Namespace := flags_Namespace flags;
               filter_Podname := flags_Podname flags;
               filter_ContainerName := flags_Containername flags;
               filter_Labels := flags_Labels flags |}
  else None.

(** The trace object [CreateTrace] builds. *)
Definition CreateTrace_trace (config : TraceConfig) (traceID : string) : Trace :=
  let flags := CommonFlags_ config in
  {| ObjectMeta_ :=
       {| GenerateName := GadgetName config +:+ "-";
          Namespace := "gadget";
          Annotations := {[ GADGET_OPERATION := Operation config ]};
          Labels :=
            <[ GLOBAL_TRACE_ID := traceID ]> (
            <[ "gadgetName" := GadgetName config ]> (
            <[ "nodeName" := flags_Node flags ]> (
            <[ "namespace" := flags_Namespace flags ]> (
            <[ "podName" := flags_Podname flags ]> (
            <[ "containerName" := flags_Containername flags ]> (
            <[ "outputMode" := TraceOutputMode config ]> ∅)))))) |};
     Spec :=
       {| Node := flags_Node flags;
          Gadget := GadgetName config;
          Filter := CreateTrace_filter config;
          RunMode := "Manual";
          OutputMode := TraceOutputMode config;
          Output := TraceOutput config |};
     Status := emptyStatus |}.

(** [CreateTrace]; the result is [None] only if the wait did not return
    within [maxRounds] rounds. *)
Definition CreateTrace (config : TraceConfig) : M (option (string * option string)) :=
  traceID <- randomTraceID;;
  let trace := CreateTrace_trace config traceID in
  err <- createTraces trace;;
  match err with
  | Some e => ret (Some ("", Some e))
  | None =>
      if decide (TraceInitialState config ≠ "") then
        r <- waitForTraceState traceID (TraceInitialState config);;
        match r with
        | None => ret None
        | Some (_, Some e) =>
            deleteError <- DeleteTrace traceID;;
            match deleteError with
            | Some _ => eprint [e +:+ newline]
            | None => ret tt
            end;;;
            ret (Some ("", Some e))
        | Some (_, None) => ret (Some (traceID, None))
        end
      else ret (Some (traceID, None))
  end.

End Orchestrator.

(** The worlds in which the rounds of one wait start: [w'] is reached
    from [w] by rounds that all retried. *)
Inductive retried (env : Env) (start : N) (traceID expectedState : string)
  : World → World → Prop :=
  | retried_none w : retried env start traceID expectedState w w
  | retried_round w w1 w2 :
      waitForTraceState_round env start traceID expectedState w = (None, w1) →
      retried env start traceID expectedState w1 w2 →
      retried env start traceID expectedState w w2.

(** *** A runtime and an environment to run the definitions on *)

Definition doubleQuote : string := String (Ascii.ascii_of_nat 34) EmptyString.

(** [%q] on a string of printable characters without quote or
    backslash. *)
Definition quotePlain (s : string) : string := doubleQuote +:+ s +:+ doubleQuote.

Definition keyOrder : RangeOrder :=
  {| range_of := map_to_list; range_of_perm := λ m, reflexivity (map_to_list m) |}.

Definition reverseKeyOrder : RangeOrder :=
  {| range_of := λ m, reverse (map_to_list m);
     range_of_perm := λ m, reverse_Permutation (map_to_list m) |}.

Definition plainRuntime : GoRuntime :=
  {| fmt_q := quotePlain;
     range_getIdenticalValue := keyOrder;
     range_printTraceFeedback := keyOrder |}.

Definition reverseRuntime : GoRuntime :=
  {| fmt_q := quotePlain;
     range_getIdenticalValue := reverseKeyOrder;
     range_printTraceFeedback := keyOrder |}.

(** A cluster of the given nodes in which the agents report the given
    status, create and delete calls get the given answers, every other
    request succeeds and no request takes time. *)
Definition clusterEnv (nodes : list string) (status : Trace → TraceStatus)
    (post : Trace → option string) (delete : option string) : Env :=
  {| runtime := plainRuntime;
     rand_Int31 := λ n, N.of_nat (7 * n + 3);
     kubeRestConfig := λ _, None;
     UnversionedRESTClientFor := λ _, None;
     NewClientsetFromConfigFlags := λ _, None;
     Nodes_List := λ _, inr nodes;
     Post_Error := λ _, post;
     Delete_Error := λ _, delete;
     Get_Error := λ _, None;
     agent := λ _, status;
     latency := λ _, 0%N |}.

(** The same, with every request succeeding. *)
Definition quietEnv (nodes : list string) (status : Trace → TraceStatus) : Env :=
  clusterEnv nodes status (λ _, None) None.

Definition emptyWorld : World :=
  {| requests := 0; draws := 0; clock := 0; traces := []; stderr := [] |}.

Definition worldWith (copies : list Trace) : World :=
  {| requests := 0; draws := 0; clock := 0; traces := copies; stderr := [] |}.

(** A request for the tcpconnect gadget on the given node (all nodes if
    empty), without filter. *)
Definition demoConfig (node initialState : string) : TraceConfig :=
  {| GadgetName := "tcpconnect"; Operation := "start";
     TraceOutputMode := "Stream"; TraceOutputState := "Started";
     TraceOutput := ""; TraceInitialState := initialState;
     CommonFlags_ := {| flags_Node := node; flags_Namespace := ""; flags_Podname := "";
                        flags_Containername := ""; flags_Labels := ∅ |} |}.

(** The copy of that request on a node. *)
Definition demoCopy (traceID node : string) : Trace :=
  setNode node (CreateTrace_trace (demoConfig "" "") traceID).

Definition statusOf (state error warning : string) : TraceStatus :=
  {| State := state; OperationError := error; OperationWarning := warning |}.

(** Two copies, on [n1] and [n2]; [n1] reports a warning and [n2] an
    error. *)
Definition demoEnv : Env :=
  quietEnv ["n1"; "n2"]
    (λ t, if decide (Node (Spec t) = "n1") then statusOf "" "" "slow"
          else statusOf "" "bad" "").

Definition demoWorld : World := worldWith [demoCopy "abc" "n1"; demoCopy "abc" "n2"].

(** The create call fails on [n2]. *)
Definition failOnN2 (t : Trace) : option string :=
  if decide (Node (Spec t) = "n2") then Some "boom" else None.

(** The three verdicts of one round on a copy other than "reported an
    error" and "reported a warning": the copy is in the expected state,
    or it has not answered yet. *)
Definition converged (expectedState : string) (i : Trace) : Prop :=
  OperationError (Status i) = "" ∧
  OperationWarning (Status i) = "" ∧
  State (Status i) = expectedState.

Definition pending (expectedState : string) (i : Trace) : Prop :=
  OperationError (Status i) = "" ∧
  OperationWarning (Status i) = "" ∧
  State (Status i) ≠ expectedState.

#[export] Instance converged_dec e i : Decision (converged e i).
Proof. unfold converged. apply _. Defined.

#[export] Instance pending_dec e i : Decision (pending e i).
Proof. unfold pending. apply _. Defined.


(** *** The other operations of the orchestrator *)

(** The loop of [labelsFromFilter] over the entries in the order of the
    [range]; [labels] and [separator] are the locals of these names. *)
Fixpoint labelsFromFilter_loop (labels separator : string) (entries : list (string * string))
  : string :=
  match entries with
  | [] => labels
  | (labelName, labelValue) :: rest =>
      if decide (labelValue = "") then labelsFromFilter_loop labels separator rest
      else labelsFromFilter_loop
             (labels +:+ separator +:+ labelName +:+ "=" +:+ labelValue) "," rest
  end.

Definition labelsFromFilter (order : RangeOrder) (filter : gmap string string) : string :=
  labelsFromFilter_loop "" "" (range_of order filter).

(** One requirement of a label selector: [labelName=labelValue]. *)
Definition requirement (entry : string * string) : string :=
  entry.1 +:+ "=" +:+ entry.2.

(** A copy is selected by [gadgetName=gadget] in namespace [gadget]. *)
Definition selectedByGadgetName (gadget : string) (t : Trace) : bool :=
  bool_decide (Namespace (ObjectMeta_ t) = "gadget") &&
  bool_decide (Labels (ObjectMeta_ t) !! "gadgetName" = Some gadget).

(** The JSON merge patch of [updateTraceOperation] applied to an object:
    the annotation [GADGET_OPERATION] is set, nothing else changes. *)
Definition setOperation (operation : string) (t : Trace) : Trace :=
  {| ObjectMeta_ :=
       {| GenerateName := GenerateName (ObjectMeta_ t);
          Namespace := Namespace (ObjectMeta_ t);
          Annotations := <[GADGET_OPERATION := operation]> (Annotations (ObjectMeta_ t));
          Labels := Labels (ObjectMeta_ t) |};
     Spec := Spec t;
     Status := Status t |}.

#[export] Instance ContainerFilter_eq_dec : EqDecision ContainerFilter.
Proof. solve_decision. Defined.

#[export] Instance TraceSpec_eq_dec : EqDecision TraceSpec.
Proof. solve_decision. Defined.

#[export] Instance ObjectMeta_eq_dec : EqDecision ObjectMeta.
Proof. solve_decision. Defined.

(** The stored object that a listed copy names.  The store keeps no
    object names: it is the stored copy with the metadata and the spec
    of the listed one (the status is the agent's). *)
Definition sameObject (listed stored : Trace) : bool :=
  bool_decide (ObjectMeta_ stored = ObjectMeta_ listed) &&
  bool_decide (Spec stored = Spec listed).

(** The patch of one listed copy, on a stored object, and the patches
    of the listed copies one after the other. *)
Definition patched (operation : string) (listed t : Trace) : Trace :=
  if sameObject listed t then setOperation operation t else t.

Definition patchedAll (operation : string) (items : list Trace) (t : Trace) : Trace :=
  foldl (λ t listed, patched operation listed t) t items.

(** What the process gets from outside for [SetTraceOperation]: the
    error of [json.Marshal] on the patch for an operation, the answer of
    the [n]-th request when it is the patch of a copy, and the text
    [fmt.Errorf] writes for the operand of [%w], which is [nil] at the
    first failure. *)
Record PatchEnv := {
  Marshal_Error : string → option string;
  Patch_Error : nat → Trace → string → option string;
  fmt_w : option string → string
}.

(** Every patch is marshalled and accepted; [%w] on [nil] as [fmt]
    writes it. *)
Definition quietPatch : PatchEnv :=
  {| Marshal_Error := λ _, None;
     Patch_Error := λ _ _ _, None;
     fmt_w := λ _, "%!w(<nil>)" |}.

Section Operations.

Context (env : Env).

(** [DeleteTracesByGadgetName] *)
Definition DeleteTracesByGadgetName (gadget : string) : M (option string) :=
  r <- getRestClient env;;
  match r with
  | Some err => ret (Some err)
  | None =>
      n <- request env;;
      match Delete_Error env n with
      | Some err => ret (Some err)
      | None =>
          setTraces (filter (λ t, ¬ selectedByGadgetName gadget t));;;
          ret None
      end
  end.

(** [PrintTraceOutputFromStatus]; the result is [None] only if the wait
    did not return within [maxRounds] rounds. *)
Definition PrintTraceOutputFromStatus (traceID expectedState : string)
    (customResultsDisplay : list Trace → M (option string)) : M (option (option string)) :=
  r <- waitForTraceState env traceID expectedState;;
  match r with
  | None => ret None
  | Some (_, Some err) => ret (Some (Some err))
  | Some (traces, None) => err <- customResultsDisplay traces;; ret (Some err)
  end.


Context (penv : PatchEnv).

(** [updateTraceOperation] *)
Definition updateTraceOperation (trace : Trace) (operation : string) : M (option string) :=
  r <- getRestClient env;;
  match r with
  | Some err => ret (Some err)
  | None =>
      match Marshal_Error penv operation with
      | Some err => ret (Some ("Error marshalling the operation annotations: " +:+ err))
      | None =>
          n <- request env;;
          match Patch_Error penv n trace operation with
          | Some err => ret (Some err)
          | None =>
              setTraces (map (λ t, if sameObject trace t then setOperation operation t
                                   else t));;;
              ret None
          end
      end
  end.

(** The loop of [SetTraceOperation] over [traces.Items]; [err] is the
    local of this name. *)
Fixpoint SetTraceOperation_loop (traceID operation : string) (err : option string)
    (items : list Trace) : M (option string) :=
  match items with
  | [] => ret err
  | trace :: rest =>
      localError <- updateTraceOperation trace operation;;
      match localError with
      | Some e =>
          SetTraceOperation_loop traceID operation
            (Some (fmt_w penv err +:+ newline +:+ "Error updating trace operation for "
                   +:+ traceID +:+ ": " +:+ e)) rest
      | None => SetTraceOperation_loop traceID operation err rest
      end
  end.

Definition SetTraceOperation (traceID operation : string) : M (option string) :=
  r <- getTraceListFromID env traceID;;
  match r.2 with
  | Some err => ret (Some err)
  | None => SetTraceOperation_loop traceID operation None r.1
  end.

End Operations.

End utils.

(** ** The tcpconnect tracer *)

Module tracer.

(** *** The kernel side *)

(** A hook point, as [link.Kprobe], [link.Kretprobe] and
    [link.Tracepoint] name it. *)
Inductive Hook :=
  | Kprobe (symbol : string)
  | Kretprobe (symbol : string)
  | Tracepoint (group name : string).

(** A program attached to a hook point, and the handle ([link.Link]) that
    stands for the attachment. *)
Record Attachment := {
  link_id : nat;
  link_hook : Hook;
  link_prog : string
}.

(** A loaded collection ([tcpconnectObjects]): its handle, the constants
    written into the programs and the map that replaces
    [mount_ns_filter], if any. *)
Record Collection := {
  coll_id : nat;
  filter_by_mnt_ns : bool;
  targ_min_latency_ns : Z;
  calculate_latency : bool;
  mount_ns_filter : option nat
}.

(** What this process holds in the kernel: attachments, loaded
    collections and perf readers. *)
Record Kernel := {
  links : list Attachment;
  collections : list Collection;
  readers : list nat
}.

(** The answers of the kernel and of the loader to the calls of
    [install] and to the [Close] of the collection: [None] is
    success. *)
Record Faults := {
  loadTcpconnect_err : option string;
  RewriteConstants_err : option string;
  LoadAndAssign_err : option string;
  attach_err : Hook → option string;
  NewReader_err : option string;
  objs_Close_err : option string
}.

(** A handle that is not in use. *)
Definition fresh (used : list nat) : nat := S (max_list used).

Record Config := {
  MountnsMap : option nat;
  CalculateLatency : bool;
  MinLatency : Z
}.

(** The fields of [Tracer] that [install] and [close] use; a [nil] link
    or reader is [None].  [objs] holds the handle of the collection once
    [LoadAndAssign] has filled it. *)
Record Tracer := {
  config : Config;
  objs : option nat;
  v4EnterLink : option nat;
  v4ExitLink : option nat;
  v6EnterLink : option nat;
  v6ExitLink : option nat;
  tcpDestroySockLink : option nat;
  tcpRvcStateProcessLink : option nat;
  reader : option nat
}.

Definition K (A : Type) : Type := Kernel → A * Kernel.

(** [link.Kprobe], [link.Kretprobe], [link.Tracepoint]: the link and the
    error. *)
Definition attach (f : Faults) (h : Hook) (prog : string) : K (option nat * option string) :=
  λ k, match attach_err f h with
       | Some err => ((None, Some err), k)
       | None =>
           let id := fresh (link_id <$> links k) in
           ((Some id, None),
            {| links := {| link_id := id; link_hook := h; link_prog := prog |} :: links k;
               collections := collections k; readers := readers k |})
       end.

(** Modelled from the spec: [gadgets.CloseLink] is not under src; [Close]
    "releases hook attachments" and is "safe to call multiple times", so
    a link that is not [nil] is closed, which detaches it, and [nil] is
    returned either way. *)
Definition CloseLink (l : option nat) : K (option nat) :=
  λ k, match l with
       | Some id =>
           (None, {| links := filter (λ a, link_id a ≠ id) (links k);
                     collections := collections k; readers := readers k |})
       | None => (None, k)
       end.

(** Modelled from the spec: [t.objs.Close()] is the [Close] that bpf2go
    generates for [tcpconnectObjects], in a file that is not under src.
    It is modelled after the [Close] the same generator wrote for the
    capabilities tracer, which is under src ([capabilitiesObjects_Close]
    below): it closes the programs and maps of the collection one after
    the other and returns at the first that fails to close, with its
    error.  The collection is one handle here: it is released when every
    close succeeds, and still held when one fails.  On a collection that
    was not loaded there is nothing to close. *)
Definition objs_Close (f : Faults) (o : option nat) : K (option string) :=
  λ k, match o with
       | Some id =>
           match objs_Close_err f with
           | Some err => (Some err, k)
           | None =>
               (None, {| links := links k;
                         collections := filter (λ c, coll_id c ≠ id) (collections k);
                         readers := readers k |})
           end
       | None => (None, k)
       end.

(** [spec.LoadAndAssign(&t.objs, &opts)] *)
Definition LoadAndAssign (f : Faults) (c : Config) : K (option nat * option string) :=
  λ k, match LoadAndAssign_err f with
       | Some err => ((None, Some err), k)
       | None =>
           let id := fresh (coll_id <$> collections k) in
           ((Some id, None),
            {| links := links k;
               collections :=
                 {| coll_id := id;
                    filter_by_mnt_ns := bool_decide (MountnsMap c ≠ None);
                    targ_min_latency_ns := MinLatency c;
                    calculate_latency := CalculateLatency c;
                    mount_ns_filter := MountnsMap c |} :: collections k;
               readers := readers k |})
       end.

(** [perf.NewReader] *)
Definition NewReader (f : Faults) : K (option nat * option string) :=
  λ k, match NewReader_err f with
       | Some err => ((None, Some err), k)
       | None =>
           let id := fresh (readers k) in
           ((Some id, None),
            {| links := links k; collections := collections k; readers := id :: readers k |})
       end.

(** *** install, close, NewTracer *)

Definition newTracer (c : Config) : Tracer :=
  {| config := c; objs := None; v4EnterLink := None; v4ExitLink := None;
     v6EnterLink := None; v6ExitLink := None; tcpDestroySockLink := None;
     tcpRvcStateProcessLink := None; reader := None |}.

(** [close]; the error of [t.objs.Close()] is dropped. *)
Definition close (f : Faults) (t : Tracer) : K Tracer := λ k,
  let '(l1, k) := CloseLink (v4EnterLink t) k in
  let '(l2, k) := CloseLink (v4ExitLink t) k in
  let '(l3, k) := CloseLink (v6EnterLink t) k in
  let '(l4, k) := CloseLink (v6ExitLink t) k in
  let '(l5, k) := CloseLink (tcpDestroySockLink t) k in
  let '(l6, k) := CloseLink (tcpRvcStateProcessLink t) k in
  let '(_, k) := objs_Close f (objs t) k in
  ({| config := config t; objs := objs t; v4EnterLink := l1; v4ExitLink := l2;
      v6EnterLink := l3; v6ExitLink := l4; tcpDestroySockLink := l5;
      tcpRvcStateProcessLink := l6; reader := reader t |}, k).

(** Assignments to the fields of the tracer. *)
Definition set_objs (o : option nat) (t : Tracer) : Tracer :=
  {| config := config t; objs := o; v4EnterLink := v4EnterLink t;
     v4ExitLink := v4ExitLink t; v6EnterLink := v6EnterLink t; v6ExitLink := v6ExitLink t;
     tcpDestroySockLink := tcpDestroySockLink t;
     tcpRvcStateProcessLink := tcpRvcStateProcessLink t; reader := reader t |}.

Definition set_v4EnterLink (l : option nat) (t : Tracer) : Tracer :=
  {| config := config t; objs := objs t; v4EnterLink := l;
     v4ExitLink := v4ExitLink t; v6EnterLink := v6EnterLink t; v6ExitLink := v6ExitLink t;
     tcpDestroySockLink := tcpDestroySockLink t;
     tcpRvcStateProcessLink := tcpRvcStateProcessLink t; reader := reader t |}.

Definition set_v4ExitLink (l : option nat) (t : Tracer) : Tracer :=
  {| config := config t; objs := objs t; v4EnterLink := v4EnterLink t;
     v4ExitLink := l; v6EnterLink := v6EnterLink t; v6ExitLink := v6ExitLink t;
     tcpDestroySockLink := tcpDestroySockLink t;
     tcpRvcStateProcessLink := tcpRvcStateProcessLink t; reader := reader t |}.

Definition set_v6EnterLink (l : option nat) (t : Tracer) : Tracer :=
  {| config := config t; objs := objs t; v4EnterLink := v4EnterLink t;
     v4ExitLink := v4ExitLink t; v6EnterLink := l; v6ExitLink := v6ExitLink t;
     tcpDestroySockLink := tcpDestroySockLink t;
     tcpRvcStateProcessLink := tcpRvcStateProcessLink t; reader := reader t |}.

Definition set_v6ExitLink (l : option nat) (t : Tracer) : Tracer :=
  {| config := config t; objs := objs t; v4EnterLink := v4EnterLink t;
     v4ExitLink := v4ExitLink t; v6EnterLink := v6EnterLink t; v6ExitLink := l;
     tcpDestroySockLink := tcpDestroySockLink t;
     tcpRvcStateProcessLink := tcpRvcStateProcessLink t; reader := reader t |}.

Definition set_tcpDestroySockLink (l : option nat) (t : Tracer) : Tracer :=
  {| config := config t; objs := objs t; v4EnterLink := v4EnterLink t;
     v4ExitLink := v4ExitLink t; v6EnterLink := v6EnterLink t; v6ExitLink := v6ExitLink t;
     tcpDestroySockLink := l;
     tcpRvcStateProcessLink := tcpRvcStateProcessLink t; reader := reader t |}.

Definition set_tcpRvcStateProcessLink (l : option nat) (t : Tracer) : Tracer :=
  {| config := config t; objs := objs t; v4EnterLink := v4EnterLink t;
     v4ExitLink := v4ExitLink t; v6EnterLink := v6EnterLink t; v6ExitLink := v6ExitLink t;
     tcpDestroySockLink := tcpDestroySockLink t;
     tcpRvcStateProcessLink := l; reader := reader t |}.

Definition set_reader (r : option nat) (t : Tracer) : Tracer :=
  {| config := config t; objs := objs t; v4EnterLink := v4EnterLink t;
     v4ExitLink := v4ExitLink t; v6EnterLink := v6EnterLink t; v6ExitLink := v6ExitLink t;
     tcpDestroySockLink := tcpDestroySockLink t;
     tcpRvcStateProcessLink := tcpRvcStateProcessLink t; reader := r |}.

Definition attachError (err : string) : string := "error attaching program: " +:+ err.

(** The two hooks of the branch of [install] for the given mode: the
    error, and the tracer as the branch leaves it. *)
Definition install_mode (f : Faults) (t : Tracer) : K (option string * Tracer) := λ k,
  if negb (CalculateLatency (config t)) then
    let '((l, err), k) := attach f (Kretprobe "tcp_v4_connect") "IgTcpcV4CoX" k in
    let t := set_v4ExitLink l t in
    match err with
    | Some err => ((Some (attachError err), t), k)
    | None =>
        let '((l, err), k) := attach f (Kretprobe "tcp_v6_connect") "IgTcpcV6CoX" k in
        let t := set_v6ExitLink l t in
        match err with
        | Some err => ((Some (attachError err), t), k)
        | None => ((None, t), k)
        end
    end
  else
    let '((l, err), k) := attach f (Tracepoint "tcp" "tcp_destroy_sock") "IgTcpDestroy" k in
    let t := set_tcpDestroySockLink l t in
    match err with
    | Some err => ((Some (attachError err), t), k)
    | None =>
        let '((l, err), k) := attach f (Kprobe "tcp_rcv_state_process") "IgTcpRsp" k in
        let t := set_tcpRvcStateProcessLink l t in
        match err with
        | Some err => ((Some ("attaching program: " +:+ err), t), k)
        | None => ((None, t), k)
        end
    end.

(** [install]: the error, and the tracer as the call leaves it. *)
Definition install (f : Faults) (t : Tracer) : K (option string * Tracer) := λ k,
  match loadTcpconnect_err f with
  | Some err => ((Some ("failed to load ebpf program: " +:+ err), t), k)
  | None =>
  match RewriteConstants_err f with
  | Some err => ((Some ("error RewriteConstants: " +:+ err), t), k)
  | None =>
  let '((o, err), k) := LoadAndAssign f (config t) k in
  let t := set_objs o t in
  match err with
  | Some err => ((Some ("failed to load ebpf program: " +:+ err), t), k)
  | None =>
  let '((l, err), k) := attach f (Kprobe "tcp_v4_connect") "IgTcpcV4CoE" k in
  let t := set_v4EnterLink l t in
  match err with
  | Some err => ((Some (attachError err), t), k)
  | None =>
  let '((l, err), k) := attach f (Kprobe "tcp_v6_connect") "IgTcpcV6CoE" k in
  let t := set_v6EnterLink l t in
  match err with
  | Some err => ((Some (attachError err), t), k)
  | None =>
  let '((err, t), k) := install_mode f t k in
  match err with
  | Some err => ((Some err, t), k)
  | None =>
  let '((r, err), k) := NewReader f k in
  match err with
  | Some err => ((Some ("error creating perf ring buffer: " +:+ err), t), k)
  | None => ((None, set_reader r t), k)
  end end end end end end end.

(** [NewTracer]: the tracer ([nil] is [None]) and the error.  The
    goroutine it starts on success is [run] below. *)
Definition NewTracer (f : Faults) (c : Config) : K (option Tracer * option string) := λ k,
  let '((err, t), k) := install f (newTracer c) k in
  match err with
  | Some err => let '(_, k) := close f t k in ((None, Some err), k)
  | None => ((Some t, None), k)
  end.

(** *** Stop, Run and the registry *)

(** [Stop] *)
Definition Stop (f : Faults) (t : Tracer) : K Tracer := close f t.

Definition set_config (c : Config) (t : Tracer) : Tracer :=
  {| config := c; objs := objs t; v4EnterLink := v4EnterLink t;
     v4ExitLink := v4ExitLink t; v6EnterLink := v6EnterLink t; v6ExitLink := v6ExitLink t;
     tcpDestroySockLink := tcpDestroySockLink t;
     tcpRvcStateProcessLink := tcpRvcStateProcessLink t; reader := reader t |}.

(** [GadgetDesc.NewInstance]: a tracer with an empty configuration. *)
Definition NewInstance : Tracer :=
  newTracer {| MountnsMap := None; CalculateLatency := false; MinLatency := 0 |}.

(** [SetMountNsMap] *)
Definition SetMountNsMap (mountnsMap : option nat) (t : Tracer) : Tracer :=
  set_config {| MountnsMap := mountnsMap;
                CalculateLatency := CalculateLatency (config t);
                MinLatency := MinLatency (config t) |} t.

(** [Run]: [latency] and [min] are the parameters [ParamLatency] and
    [ParamMin] of the gadget context.  On success the loop [run] below
    is started and [WaitForTimeoutOrDone] waits; the deferred [close]
    runs when [Run] returns, with or without an error. *)
Definition Run (f : Faults) (latency : bool) (min : Z) (t : Tracer)
  : K (option string * Tracer) := λ k,
  let t := set_config {| MountnsMap := MountnsMap (config t);
                         CalculateLatency := latency; MinLatency := min |} t in
  let '((err, t), k) := install f t k in
  let '(t, k) := close f t k in
  ((match err with
    | Some err => Some ("installing tracer: " +:+ err)
    | None => None
    end, t), k).

(** *** run *)

(** [perf.Record] *)
Record PerfRecord := {
  RawSample : list Byte.byte;
  LostSamples : N
}.

(** What the perf reader delivers (package perf, outside the
    repository): the notification of a number of lost samples, or a
    sample, which holds the event the kernel program wrote, of a fixed
    layout and not empty. *)
Definition deliverable (record : PerfRecord) : Prop :=
  (0 < LostSamples record)%N ∨ RawSample record ≠ [].

#[export] Instance deliverable_dec record : Decision (deliverable record).
Proof. unfold deliverable. apply _. Defined.

(** The error of [t.reader.Read()]: its text, and whether
    [errors.Is(err, perf.ErrClosed)] holds. *)
Record ReadError := {
  read_error_text : string;
  read_error_is_closed : bool
}.

(** Modelled from the spec: the event kinds of package [eventtypes],
    which is not under src ("kind: normal/error/warning"). *)
Inductive EventType := NORMAL | ERR | WARN.

Section Run.

(** The fields of [types.Event] that [run] fills from the raw sample
    (by a cast to the generated [tcpconnectEvent] and helpers of package
    [gadgets], none of them under src), and that conversion. *)
Context {Payload : Type} (decode : list Byte.byte → Payload).

(** [types.Event]: the kind and message of the envelope, and the
    payload, which a synthetic event does not have. *)
Record Event := {
  Type_ : EventType;
  Message : string;
  payload : option Payload
}.

(** Modelled from the spec: [types.Base(eventtypes.Err(msg))] and
    [types.Base(eventtypes.Warn(msg))], not under src, build the
    "error-kind" and "warning-kind" event carrying the message. *)
Definition Base_Err (msg : string) : Event :=
  {| Type_ := ERR; Message := msg; payload := None |}.

Definition Base_Warn (msg : string) : Event :=
  {| Type_ := WARN; Message := msg; payload := None |}.

(** How one turn of the loop of [run] ends, and how [run] ends.
    [Blocked]: [Read] has not returned. *)
Inductive Turn := Continue (ev : Event) | Return (evs : list Event) | Panic.

Inductive RunEnd := Returned | Panicked | Blocked.

(** One turn of the loop, on what [t.reader.Read()] returned.
    [enricher] is [t.enricher] ([nil] is [None]), as the function it
    applies to the payload. *)
Definition run_turn (enricher : option (Payload → Payload)) (read : ReadError + PerfRecord)
  : Turn :=
  match read with
  | inl err =>
      if read_error_is_closed err then Return []
      else Return [Base_Err ("Error reading perf ring buffer: " +:+ read_error_text err)]
  | inr record =>
      if bool_decide (0 < LostSamples record)%N then
        Continue (Base_Warn ("lost " +:+ pretty (LostSamples record) +:+ " samples"))
      else
        match RawSample record with
        | [] => Panic
        | _ =>
            let p := decode (RawSample record) in
            Continue {| Type_ := NORMAL; Message := "";
                        payload := Some (from_option (λ enrich, enrich p) p enricher) |}
        end
  end.

(** [run], on what the successive calls of [t.reader.Read()] return: the
    events passed to [t.eventCallback], in order, and how the loop
    ends.  [t.eventCallback] is the function that [NewTracer] or
    [SetEventHandler] stored. *)
Fixpoint run (enricher : option (Payload → Payload)) (reads : list (ReadError + PerfRecord))
  : list Event * RunEnd :=
  match reads with
  | [] => ([], Blocked)
  | read :: rest =>
      match run_turn enricher read with
      | Continue ev => let out := run enricher rest in (ev :: out.1, out.2)
      | Return evs => (evs, Returned)
      | Panic => ([], Panicked)
      end
  end.

End Run.

Arguments Base_Err {Payload} msg.
Arguments Base_Warn {Payload} msg.
Arguments Continue {Payload} ev.
Arguments Return {Payload} evs.
Arguments Panic {Payload}.

End tracer.

(** ** The objects of the capabilities tracer (generated by bpf2go) *)

Module capabilities.

(** The handles (file descriptors) this process has open, and a value
    with a [Close] method ([io.Closer]): the error, and what is open
    afterwards. *)
Definition Closer : Type := gset nat → option string * gset nat.

(** [Close] of an [*ebpf.Program] or [*ebpf.Map] (package ebpf, outside
    the repository): nothing on a [nil] pointer; otherwise the handle is
    closed, unless the kernel answers with an error ([close_err]). *)
Definition ebpf_Close (close_err : nat → option string) (h : option nat) : Closer :=
  λ s, match h with
       | None => (None, s)
       | Some fd =>
           match close_err fd with
           | Some err => (Some err, s)
           | None => (None, s ∖ {[fd]})
           end
       end.

Fixpoint _CapabilitiesClose (closers : list Closer) : Closer :=
  λ s, match closers with
       | [] => (None, s)
       | closer :: rest =>
           match closer s with
           | (Some err, s) => (Some err, s)
           | (None, s) => _CapabilitiesClose rest s
           end
       end.

Record capabilitiesPrograms := {
  IgCapSchedExec : option nat;
  IgCapSchedExit : option nat;
  IgCapSysEnter : option nat;
  IgCapSysExit : option nat;
  IgTraceCapE : option nat;
  IgTraceCapX : option nat
}.

Record capabilitiesMaps := {
  CurrentSyscall : option nat;
  Events : option nat;
  GadgetMntnsFilterMap : option nat;
  Seen : option nat;
  Start : option nat
}.

Record capabilitiesObjects := {
  capabilitiesPrograms_ : capabilitiesPrograms;
  capabilitiesMaps_ : capabilitiesMaps
}.

Section Close.

Context (close_err : nat → option string).

(** The handles of the programs and of the maps, in the order in which
    their [Close] methods list them. *)
Definition programHandles (p : capabilitiesPrograms) : list (option nat) :=
  [IgCapSchedExec p; IgCapSchedExit p; IgCapSysEnter p; IgCapSysExit p;
   IgTraceCapE p; IgTraceCapX p].

Definition mapHandles (m : capabilitiesMaps) : list (option nat) :=
  [CurrentSyscall m; Events m; GadgetMntnsFilterMap m; Seen m; Start m].

(** [(p *capabilitiesPrograms) Close] *)
Definition capabilitiesPrograms_Close (p : capabilitiesPrograms) : Closer :=
  _CapabilitiesClose (ebpf_Close close_err <$> programHandles p).

(** [(m *capabilitiesMaps) Close] *)
Definition capabilitiesMaps_Close (m : capabilitiesMaps) : Closer :=
  _CapabilitiesClose (ebpf_Close close_err <$> mapHandles m).

(** [(o *capabilitiesObjects) Close] *)
Definition capabilitiesObjects_Close (o : capabilitiesObjects) : Closer :=
  _CapabilitiesClose
    [capabilitiesPrograms_Close (capabilitiesPrograms_ o);
     capabilitiesMaps_Close (capabilitiesMaps_ o)].

End Close.

End capabilities.



(** * Properties of the orchestrator *)

(** [map_Forall] on a map written out by its entries. *)
Ltac map_Forall_literal :=
  repeat (apply map_Forall_insert_2; [done|]);
  first [apply map_Forall_empty | by apply map_Forall_singleton].

Section FeedbackProperties.

Import utils.

(** Entries and values in the order of a [range] are those of the map. *)
Lemma range_of_elem (o : RangeOrder) (m : gmap string string) k v :
  (k, v) ∈ range_of o m ↔ m !! k = Some v.
Proof. by rewrite (range_of_perm o m), elem_of_map_to_list. Qed.

Lemma range_of_length (o : RangeOrder) (m : gmap string string) :
  length (range_of o m) = size m.
Proof. by rewrite (range_of_perm o m), length_map_to_list. Qed.

Lemma range_of_values_Forall (o : RangeOrder) (P : string → Prop) (m : gmap string string) :
  Forall P (range_of o m).*2 ↔ map_Forall (λ _ v, P v) m.
Proof.
  rewrite Forall_fmap, Forall_forall. split.
  - intros H k v Hkv%(range_of_elem o). by apply (H (k, v)).
  - intros H [k v] Hkv%range_of_elem. by apply (H k v).
Qed.

(** Once [value] holds a message, the loop keeps it as long as the
    values agree with it. *)
Lemma getIdenticalValue_loop_agree (x : string) (vs : list string) :
  x ≠ "" → Forall (λ v, v = x) vs → getIdenticalValue_loop x vs = x.
Proof.
  intros Hx. induction 1 as [|v vs -> _ IH]; simpl; [done|].
  rewrite decide_False by done. by rewrite decide_False by (intros ?; done).
Qed.

Lemma getIdenticalValue_loop_first (x : string) (vs : list string) :
  x ≠ "" → vs ≠ [] → Forall (λ v, v = x) vs → getIdenticalValue_loop "" vs = x.
Proof.
  intros Hx Hne Hall. destruct vs as [|v vs]; [done|].
  apply Forall_cons in Hall as [-> Hall]. simpl.
  by apply getIdenticalValue_loop_agree.
Qed.

(** With no empty message among the values, a result that is not empty
    is the common value of all of them. *)
Lemma getIdenticalValue_loop_sound (x : string) (vs : list string) :
  x ≠ "" → getIdenticalValue_loop x vs ≠ "" → Forall (λ v, v = x) vs.
Proof.
  intros Hx. induction vs as [|v vs IH]; simpl; [done|].
  rewrite decide_False by done. destruct (decide (x ≠ v)) as [|Heq]; [done|].
  apply dec_stable in Heq as <-. intros H. constructor; auto.
Qed.

Lemma getIdenticalValue_loop_sound_first (vs : list string) :
  Forall (λ v, v ≠ "") vs → getIdenticalValue_loop "" vs ≠ "" →
  ∃ x, x ≠ "" ∧ vs ≠ [] ∧ Forall (λ v, v = x) vs.
Proof.
  destruct vs as [|v vs]; simpl; [done|].
  intros [Hv _]%Forall_cons Hres. exists v. split_and!; [done|done|].
  constructor; [done|]. by apply getIdenticalValue_loop_sound.
Qed.

(** [getIdenticalValue] on a map without empty messages does what its
    comment says, whatever the order of the [range]. *)
Lemma getIdenticalValue_nonempty_messages (rt : GoRuntime) (m : gmap string string) (x : string) :
  map_Forall (λ _ v, v ≠ "") m →
  getIdenticalValue rt m = x ∧ x ≠ "" ↔
  m ≠ ∅ ∧ x ≠ "" ∧ map_Forall (λ _ v, v = x) m.
Proof.
  intros Hne. unfold getIdenticalValue.
  set (o := range_getIdenticalValue rt).
  assert (Hnil : (range_of o m).*2 = [] ↔ m = ∅).
  { rewrite <- (map_size_empty_iff m), <- (range_of_length o), <- (length_fmap snd).
    symmetry. apply length_zero_iff_nil. }
  split.
  - intros [Hres Hx]. subst x.
    destruct (getIdenticalValue_loop_sound_first (range_of o m).*2) as (x & Hx' & Hvs & Hall); auto.
    { by apply range_of_values_Forall. }
    rewrite (getIdenticalValue_loop_first x) by done.
    split_and!; [by rewrite <- Hnil|done|by apply (range_of_values_Forall o (λ v, v = x))].
  - intros (Hm & Hx & Hall). split; [|done].
    apply getIdenticalValue_loop_first; [done|by rewrite Hnil|].
    by apply (range_of_values_Forall o (λ v, v = x)).
Qed.

(** The per-node lines are one line for each entry of the map. *)
Lemma perNode_lines (rt : GoRuntime) (m : gmap string string) :
  nodeLine rt <$> range_of (range_printTraceFeedback rt) m ≡ₚ nodeLine rt <$> map_to_list m.
Proof. by rewrite range_of_perm. Qed.

(** C4.  On a map of messages, none of them empty (the maps that the
    only caller, [waitForTraceState], builds: [classify_messages]
    below), [printTraceFeedback] prints the single line for all nodes,
    with the message once, when the map has more than one entry, one
    for each of the [totalNodes] nodes, and all messages are the same;
    in every other case it prints one line for each entry of the map,
    and no other line. *)
Theorem printTraceFeedback_nonempty_messages (rt : GoRuntime) (m : gmap string string)
    (totalNodes : nat) :
  map_Forall (λ _ v, v ≠ "") m →
  (∀ x, 1 < size m → size m = totalNodes → map_Forall (λ _ v, v = x) m →
        printTraceFeedback rt m totalNodes = [allNodesLine x]) ∧
  (¬ (1 < size m ∧ size m = totalNodes ∧ ∃ x, map_Forall (λ _ v, v = x) m) →
        printTraceFeedback rt m totalNodes ≡ₚ nodeLine rt <$> map_to_list m).
Proof.
  intros Hne. unfold printTraceFeedback. split.
  - intros x Hsize Htotal Hall.
    rewrite !bool_decide_eq_true_2 by done. simpl.
    assert (Hm : m ≠ ∅) by (intros ->; rewrite map_size_empty in Hsize; lia).
    assert (Hx : x ≠ "").
    { destruct (map_choose m Hm) as (k & v & Hkv).
      rewrite <- (Hall k v Hkv). by apply (Hne k v). }
    destruct (proj2 (getIdenticalValue_nonempty_messages rt m x Hne)) as [-> _]; [done|].
    by rewrite decide_True.
  - intros Hnot.
    destruct (bool_decide (1 < size m) && bool_decide (size m = totalNodes)) eqn:Hguard;
      [|apply perNode_lines].
    apply andb_true_iff in Hguard as [H1%bool_decide_eq_true H2%bool_decide_eq_true].
    simpl. destruct (decide (getIdenticalValue rt m ≠ "")) as [Hv|_]; [|apply perNode_lines].
    exfalso. apply Hnot. split_and!; [done|done|].
    exists (getIdenticalValue rt m).
    by apply (getIdenticalValue_nonempty_messages rt m _ Hne).
Qed.

(** The same message from both nodes; two messages; the same message
    from two nodes of three. *)
Lemma printTraceFeedback_nonempty_messages_witness :
  printTraceFeedback plainRuntime {[ "n1" := "boom"; "n2" := "boom" ]} 2
    = [allNodesLine "boom"] ∧
  printTraceFeedback plainRuntime {[ "n1" := "boom"; "n2" := "bang" ]} 2
    ≡ₚ [nodeLine plainRuntime ("n1", "boom"); nodeLine plainRuntime ("n2", "bang")] ∧
  printTraceFeedback plainRuntime {[ "n1" := "boom"; "n2" := "boom" ]} 3
    ≡ₚ [nodeLine plainRuntime ("n1", "boom"); nodeLine plainRuntime ("n2", "boom")].
Proof.
  assert (Hsame : map_Forall (λ _ v : string, v ≠ "")
                    ({[ "n1" := "boom"; "n2" := "boom" ]} : gmap string string)).
  { map_Forall_literal. }
  assert (Hdiff : map_Forall (λ _ v : string, v ≠ "")
                    ({[ "n1" := "boom"; "n2" := "bang" ]} : gmap string string)).
  { map_Forall_literal. }
  split_and!.
  - apply (proj1 (printTraceFeedback_nonempty_messages plainRuntime _ 2 Hsame)).
    + vm_compute. lia.
    + vm_compute. reflexivity.
    + map_Forall_literal.
  - reflexivity.
  - reflexivity.
Defined.

(** Why the messages must not be empty: [getIdenticalValue] takes the
    empty string for "no value yet".  On a map with an empty message,
    which [waitForTraceState] never builds, it returns the message
    visited after the empty one, and what is printed depends on the
    order of the [range]. *)
Example printTraceFeedback_empty_message_first :
  getIdenticalValue plainRuntime {[ "n1" := ""; "n2" := "a" ]} = "a" ∧
  printTraceFeedback plainRuntime {[ "n1" := ""; "n2" := "a" ]} 2 = [allNodesLine "a"] ∧
  printTraceFeedback reverseRuntime {[ "n1" := ""; "n2" := "a" ]} 2
    = [nodeLine reverseRuntime ("n1", ""); nodeLine reverseRuntime ("n2", "a")].
Proof. split_and!; by vm_compute. Qed.

(** Every entry of a map without empty messages is printed: on its own
    line, or on the line for all nodes. *)
Lemma printTraceFeedback_entry (rt : GoRuntime) (m : gmap string string) (totalNodes : nat)
    node msg :
  map_Forall (λ _ v, v ≠ "") m →
  m !! node = Some msg →
  nodeLine rt (node, msg) ∈ printTraceFeedback rt m totalNodes ∨
  allNodesLine msg ∈ printTraceFeedback rt m totalNodes.
Proof.
  intros Hne Hl. unfold printTraceFeedback.
  assert (Hper : nodeLine rt (node, msg)
                 ∈ nodeLine rt <$> range_of (range_printTraceFeedback rt) m).
  { apply list_elem_of_fmap. exists (node, msg). split; [done|]. by apply range_of_elem. }
  destruct (bool_decide (1 < size m) && bool_decide (size m = totalNodes)); [|by left].
  cbn zeta. destruct (decide (getIdenticalValue rt m ≠ "")) as [Hv|_]; [|by left].
  right.
  destruct (proj1 (getIdenticalValue_nonempty_messages rt m _ Hne) (conj eq_refl Hv))
    as (_ & _ & Hall).
  rewrite (Hall node msg Hl). left.
Qed.

(** Every line printed is the line of an entry. *)
Lemma printTraceFeedback_line (rt : GoRuntime) (m : gmap string string) (totalNodes : nat)
    line :
  map_Forall (λ _ v, v ≠ "") m →
  line ∈ printTraceFeedback rt m totalNodes →
  ∃ node msg, m !! node = Some msg ∧
    (line = nodeLine rt (node, msg) ∨ line = allNodesLine msg).
Proof.
  intros Hne. unfold printTraceFeedback.
  assert (Hper : line ∈ nodeLine rt <$> range_of (range_printTraceFeedback rt) m →
                 ∃ node msg, m !! node = Some msg ∧
                   (line = nodeLine rt (node, msg) ∨ line = allNodesLine msg)).
  { intros ([node msg] & -> & Hin%range_of_elem)%list_elem_of_fmap. eauto. }
  destruct (bool_decide (1 < size m) && bool_decide (size m = totalNodes)); [|done].
  cbn zeta. destruct (decide (getIdenticalValue rt m ≠ "")) as [Hv|_]; [|done].
  intros ->%list_elem_of_singleton.
  destruct (proj1 (getIdenticalValue_nonempty_messages rt m _ Hne) (conj eq_refl Hv))
    as (Hm & _ & Hall).
  destruct (map_choose m Hm) as (node & msg & Hl).
  exists node, msg. split; [done|]. right. by rewrite (Hall node msg Hl).
Qed.

End FeedbackProperties.

(** Case analysis following the [if ... else if] chain of the loop over
    the items. *)
Ltac classify_cases i exp timeout :=
  destruct (decide (utils.OperationError (utils.Status i) ≠ "")) as [?|?%dec_stable];
  [|destruct (decide (utils.OperationWarning (utils.Status i) ≠ "")) as [?|?%dec_stable];
    [|destruct (decide (utils.State (utils.Status i) = exp));
      [|destruct timeout]]].

Section RoundProperties.

Import utils.

Implicit Types (items : list Trace) (r rd : Round) (i : Trace).

Lemma exists_cons_skip (P : Trace → Prop) i items :
  ¬ P i → (∃ j, j ∈ i :: items ∧ P j) ↔ ∃ j, j ∈ items ∧ P j.
Proof. setoid_rewrite elem_of_cons. naive_solver. Qed.

Lemma classify_None exp timeout items r :
  classify exp timeout items r = None ↔
  timeout = false ∧ ∃ i, i ∈ items ∧ pending exp i.
Proof.
  revert r. induction items as [|i items IH]; intros r; simpl.
  - split; [done|]. intros (_ & i & Hi & _). by apply elem_of_nil in Hi.
  - classify_cases i exp timeout.
    + rewrite IH, exists_cons_skip; [done|]. unfold pending. naive_solver.
    + rewrite IH, exists_cons_skip; [done|]. unfold pending. naive_solver.
    + rewrite IH, exists_cons_skip; [done|]. unfold pending. naive_solver.
    + rewrite IH. naive_solver.
    + split; [intros _|done]. split; [done|]. exists i. rewrite elem_of_cons.
      unfold pending. naive_solver.
Qed.

Lemma classify_count exp timeout items r rd :
  classify exp timeout items r = Some rd →
  successNodeCount rd = successNodeCount r + length (filter (converged exp) items).
Proof.
  revert r. induction items as [|i items IH]; intros r; simpl.
  - intros [= <-]. lia.
  - classify_cases i exp timeout; intros Hc; try apply IH in Hc; simpl in *; try done.
    + rewrite filter_cons_False by (unfold converged; naive_solver). lia.
    + rewrite filter_cons_False by (unfold converged; naive_solver). lia.
    + rewrite filter_cons_True by done. simpl. lia.
    + rewrite filter_cons_False by (unfold converged; naive_solver). lia.
Qed.

Lemma classify_count_zero exp timeout items rd :
  classify exp timeout items newRound = Some rd →
  successNodeCount rd = 0 ↔ ¬ ∃ i, i ∈ items ∧ converged exp i.
Proof.
  intros ->%classify_count. simpl. rewrite length_zero_iff_nil. split.
  - intros Hnil (i & Hi & Hc).
    assert (i ∈ filter (converged exp) items) as Hin by (by apply list_elem_of_filter).
    rewrite Hnil in Hin. by apply elem_of_nil in Hin.
  - intros Hnone. apply elem_of_nil_inv. intros i [??]%list_elem_of_filter. eauto.
Qed.

(** No recorded message is empty. *)
Lemma classify_messages exp timeout items r rd :
  classify exp timeout items r = Some rd →
  map_Forall (λ _ v, v ≠ "") (nodeErrors r) →
  map_Forall (λ _ v, v ≠ "") (nodeWarnings r) →
  map_Forall (λ _ v, v ≠ "") (nodeErrors rd) ∧
  map_Forall (λ _ v, v ≠ "") (nodeWarnings rd).
Proof.
  revert r. induction items as [|i items IH]; intros r; simpl.
  - by intros [= <-].
  - classify_cases i exp timeout; intros Hc He Hw; try done;
      apply IH in Hc; simpl; try done; by apply map_Forall_insert_2.
Qed.

(** Where the recorded warnings come from. *)
Lemma classify_warnings exp timeout items r rd node msg :
  classify exp timeout items r = Some rd →
  nodeWarnings rd !! node = Some msg →
  nodeWarnings r !! node = Some msg ∨
  ∃ i, i ∈ items ∧ Node (Spec i) = node ∧ OperationError (Status i) = "" ∧
       OperationWarning (Status i) = msg ∧ msg ≠ "".
Proof.
  revert r. induction items as [|i items IH]; intros r; simpl.
  - intros [= <-]. auto.
  - setoid_rewrite elem_of_cons.
    classify_cases i exp timeout; intros Hc Hl; try done;
      destruct (IH _ Hc Hl) as [Hr|(j & ? & ?)]; simpl in *; eauto 10.
    apply lookup_insert_Some in Hr as [[<- <-]|[_ ?]]; eauto 10.
Qed.

(** Where the recorded errors come from. *)
Lemma classify_errors exp timeout items r rd node msg :
  classify exp timeout items r = Some rd →
  nodeErrors rd !! node = Some msg →
  nodeErrors r !! node = Some msg ∨
  ∃ i, i ∈ items ∧ Node (Spec i) = node ∧
       (OperationError (Status i) = msg ∧ msg ≠ "" ∨
        pending exp i ∧ timeout = true ∧ msg = noResultsMessage).
Proof.
  revert r. induction items as [|i items IH]; intros r; simpl.
  - intros [= <-]. auto.
  - setoid_rewrite elem_of_cons. unfold pending in *.
    classify_cases i exp timeout; intros Hc Hl; try done;
      destruct (IH _ Hc Hl) as [Hr|(j & ? & ?)]; simpl in *; eauto 10.
    + apply lookup_insert_Some in Hr as [[<- <-]|[_ ?]]; eauto 10.
    + apply lookup_insert_Some in Hr as [[<- <-]|[_ ?]]; eauto 12.
Qed.

(** Entries are never removed from the two maps. *)
Lemma classify_keeps exp timeout items r rd node :
  classify exp timeout items r = Some rd →
  (is_Some (nodeErrors r !! node) → is_Some (nodeErrors rd !! node)) ∧
  (is_Some (nodeWarnings r !! node) → is_Some (nodeWarnings rd !! node)).
Proof.
  revert r. induction items as [|i items IH]; intros r; simpl.
  - by intros [= <-].
  - classify_cases i exp timeout; intros Hc; try done;
      destruct (IH _ Hc) as [He Hw]; simpl in *; split; intros Hs; auto;
      [apply He|apply Hw|apply He]; rewrite lookup_insert_is_Some; 
      destruct (decide (Node (Spec i) = node)); auto.
Qed.

(** Every copy that reported an error, or had not answered when the
    window closed, has an entry among the errors. *)
Lemma classify_errors_recorded exp timeout items r rd i :
  classify exp timeout items r = Some rd →
  i ∈ items →
  OperationError (Status i) ≠ "" ∨ pending exp i →
  is_Some (nodeErrors rd !! Node (Spec i)).
Proof.
  revert r. induction items as [|j items IH]; intros r; simpl.
  - intros _ Hi. by apply elem_of_nil in Hi.
  - intros Hc [->|Hi]%elem_of_cons Hi'; unfold pending in *.
    + classify_cases j exp timeout; try done; try naive_solver;
        apply (classify_keeps _ _ _ _ _ (Node (Spec j))) in Hc as [He _];
        apply He; simpl; rewrite lookup_insert_eq; eauto.
    + classify_cases j exp timeout; try done; eauto.
Qed.

(** Every copy that reported a warning and no error has an entry among
    the warnings. *)
Lemma classify_warnings_recorded exp timeout items r rd i :
  classify exp timeout items r = Some rd →
  i ∈ items →
  OperationError (Status i) = "" → OperationWarning (Status i) ≠ "" →
  is_Some (nodeWarnings rd !! Node (Spec i)).
Proof.
  revert r. induction items as [|j items IH]; intros r; simpl.
  - intros _ Hi. by apply elem_of_nil in Hi.
  - intros Hc [->|Hi]%elem_of_cons He Hw.
    + classify_cases j exp timeout; try done;
        apply (classify_keeps _ _ _ _ _ (Node (Spec j))) in Hc as [_ Hk];
        apply Hk; simpl; rewrite lookup_insert_eq; eauto.
    + classify_cases j exp timeout; try done; eauto.
Qed.

(** *** What the requests of a round leave unchanged *)

Lemma getRestClient_frame env w :
  let w' := (getRestClient env w).2 in
  traces w' = traces w ∧ stderr w' = stderr w ∧ draws w' = draws w ∧
  (clock w ≤ clock w')%N ∧ requests w ≤ requests w'.
Proof.
  unfold getRestClient, bind, request, ret. simpl.
  destruct (kubeRestConfig env (requests w)); simpl; [repeat split; lia|].
  destruct (UnversionedRESTClientFor env (S (requests w))); simpl; repeat split; lia.
Qed.

Lemma getTraceListFromID_frame env traceID w :
  let w' := (getTraceListFromID env traceID w).2 in
  traces w' = traces w ∧ stderr w' = stderr w ∧ draws w' = draws w ∧
  (clock w ≤ clock w')%N ∧ requests w ≤ requests w'.
Proof.
  unfold getTraceListFromID, getTraceListFromOptions, bind. simpl.
  pose proof (getRestClient_frame env w) as Hf. simpl in Hf.
  destruct (getRestClient env w) as [[err|] w1]; simpl in *; [done|].
  unfold request; simpl.
  destruct (Get_Error env (requests w1)); simpl.
  - destruct Hf as (-> & -> & -> & ? & ?). repeat split; lia.
  - destruct Hf as (<- & <- & <- & ? & ?).
    destruct (decide _); simpl; repeat split; lia.
Qed.

(** A listing that succeeds is not empty. *)
Lemma getTraceListFromID_nonempty env traceID w :
  (getTraceListFromID env traceID w).1.2 = None →
  (getTraceListFromID env traceID w).1.1 ≠ [].
Proof.
  unfold getTraceListFromID, bind.
  destruct (getTraceListFromOptions env traceID w) as [[items [err|]] w1]; simpl; [done|].
  destruct (decide (length items = 0)) as [|Hlen]; simpl; [done|].
  intros _ ->. by apply Hlen.
Qed.

(** The result of one round, from the listing it gets. *)
Lemma waitForTraceState_round_result env start traceID exp w :
  let fetched := (getTraceListFromID env traceID w).1 in
  let timeout := bool_decide (traceTimeout < clock w - start)%N in
  (waitForTraceState_round env start traceID exp w).1 =
    match fetched.2 with
    | Some err => Some ([], Some err)
    | None =>
        if decide (timeout = false ∧ Exists (pending exp) fetched.1) then None
        else if decide (Exists (converged exp) fetched.1) then Some (fetched.1, None)
        else Some ([], Some noneSucceeded)
    end.
Proof.
  unfold waitForTraceState_round, bind, now. simpl.
  destruct (getTraceListFromID env traceID w) as [[items [err|]] w1]; simpl; [done|].
  set (timeout := bool_decide _).
  destruct (classify exp timeout items newRound) as [rd|] eqn:Hc; simpl.
  - rewrite decide_False.
    2:{ rewrite Exists_exists, <- classify_None. by rewrite Hc. }
    unfold finishRound, bind, eprint, ret.
    pose proof (classify_count_zero _ _ _ _ Hc) as Hz.
    rewrite <- Exists_exists in Hz.
    destruct (decide (successNodeCount rd = 0)) as [H0|H0]; simpl.
    + rewrite decide_False; [done|]. by apply Hz.
    + rewrite decide_True; [done|]. apply dec_stable. intros Hn. by apply H0, Hz.
  - rewrite decide_True; [done|]. rewrite Exists_exists, <- classify_None. done.
Qed.

(** A round that returns has classified every copy of its listing. *)
Lemma waitForTraceState_round_returns env start traceID exp w res w' :
  waitForTraceState_round env start traceID exp w = (Some res, w') →
  let fetched := getTraceListFromID env traceID w in
  let timeout := bool_decide (traceTimeout < clock w - start)%N in
  match fetched.1.2 with
  | Some err => res = ([], Some err) ∧ w' = fetched.2
  | None =>
      ∃ rd, classify exp timeout fetched.1.1 newRound = Some rd ∧
            finishRound env fetched.1.1 rd fetched.2 = (res, w')
  end.
Proof.
  unfold waitForTraceState_round, bind, now. simpl.
  destruct (getTraceListFromID env traceID w) as [[items [err|]] w1]; simpl.
  - by intros [= <- <-].
  - destruct (classify exp _ items newRound) as [rd|]; simpl; [|done].
    intros Hr. exists rd. split; [done|].
    destruct (finishRound env items rd w1) as [res0 w0]. simpl in Hr. by injection Hr as -> ->.
Qed.

(** A round that retries started inside the window, and the next one
    starts at least [pollInterval] later, with the same copies stored
    and nothing printed. *)
Lemma waitForTraceState_round_retries env start traceID exp w w1 :
  waitForTraceState_round env start traceID exp w = (None, w1) →
  ¬ (traceTimeout < clock w - start)%N ∧ (clock w + pollInterval ≤ clock w1)%N ∧
  traces w1 = traces w ∧ stderr w1 = stderr w.
Proof.
  intros Hr. pose proof (waitForTraceState_round_result env start traceID exp w) as Hres.
  rewrite Hr in Hres. simpl in Hres. revert Hr.
  pose proof (getTraceListFromID_frame env traceID w) as Hf. simpl in Hf.
  unfold waitForTraceState_round, bind, now. simpl.
  destruct (getTraceListFromID env traceID w) as [[items [err|]] w0]; simpl in *; [done|].
  destruct (decide (bool_decide (traceTimeout < clock w - start)%N = false ∧ _))
    as [[Ht _]|]; [|by repeat case_decide].
  apply bool_decide_eq_false in Ht.
  destruct (classify exp _ items newRound) as [rd|]; simpl.
  - destruct (finishRound env items rd w0); simpl. done.
  - unfold sleep, ret. intros [= <-]. simpl.
    destruct Hf as (-> & -> & _ & ? & _). repeat split; [done|unfold pollInterval in *; lia].
Qed.

(** A round that starts after the window has closed returns. *)
Lemma waitForTraceState_round_timeout env start traceID exp w :
  (traceTimeout < clock w - start)%N →
  is_Some (waitForTraceState_round env start traceID exp w).1.
Proof.
  intros Ht. rewrite waitForTraceState_round_result.
  rewrite (bool_decide_eq_true_2 _ Ht).
  destruct (getTraceListFromID env traceID w).1.2; [eauto|].
  rewrite decide_False by (intros [[=] _]). case_decide; eauto.
Qed.

(** The loop returns within the rounds that the window allows. *)
Lemma waitForTraceState_loop_returns env start traceID exp n w :
  (start ≤ clock w)%N →
  (traceTimeout < (clock w - start) + N.of_nat n * pollInterval)%N →
  is_Some (waitForTraceState_loop env (S n) start traceID exp w).1.
Proof.
  revert w. induction n as [|n IH]; intros w Hstart Hn.
  - pose proof (waitForTraceState_round_timeout env start traceID exp w) as Hr.
    simpl. unfold bind.
    destruct (waitForTraceState_round env start traceID exp w) as [[res|] w1]; simpl in *.
    + eauto.
    + apply is_Some_None in Hr; [done|lia].
  - change (waitForTraceState_loop env (S (S n)) start traceID exp w)
      with (bind (waitForTraceState_round env start traceID exp)
              (λ o, match o with
                    | Some res => ret (Some res)
                    | None => waitForTraceState_loop env (S n) start traceID exp
                    end) w).
    unfold bind.
    destruct (waitForTraceState_round env start traceID exp w) as [[res|] w1] eqn:Hr;
      cbn [fst snd]; [eauto|].
    apply waitForTraceState_round_retries in Hr as (_ & Hclock & _).
    apply IH; unfold pollInterval in *; lia.
Qed.

(** The result of the loop is the result of the first round that does
    not retry. *)
Lemma waitForTraceState_loop_last env start traceID exp n w res w' :
  waitForTraceState_loop env n start traceID exp w = (Some res, w') →
  ∃ wk, retried env start traceID exp w wk ∧
        waitForTraceState_round env start traceID exp wk = (Some res, w').
Proof.
  revert w. induction n as [|n IH]; intros w; simpl; [done|].
  unfold bind.
  destruct (waitForTraceState_round env start traceID exp w) as [[res0|] w1] eqn:Hr;
    cbn [fst snd].
  - intros [= <- <-]. exists w. split; [constructor|done].
  - intros (wk & Hk & Hlast)%IH. exists wk. split; [|done]. by econstructor.
Qed.

(** [waitForTraceState] returns. *)
Lemma waitForTraceState_returns env traceID exp w :
  ∃ res w', waitForTraceState env traceID exp w = (Some res, w').
Proof.
  unfold waitForTraceState, bind, now. cbn [fst snd].
  pose proof (waitForTraceState_loop_returns env (clock w) traceID exp 21 w) as [res Hres].
  { lia. }
  { unfold traceTimeout, pollInterval. lia. }
  change (S 21) with maxRounds in Hres.
  destruct (waitForTraceState_loop env maxRounds (clock w) traceID exp w) as [r w'].
  simpl in Hres. subst r. eauto.
Qed.

(** C1, amended.  [waitForTraceState] returns, and its result is the
    result of the round [wk] reached through rounds that retried.  If the
    listing of that round fails (an empty listing is such a failure), the
    error of the listing is returned.  Otherwise the trace list is
    returned (success) if and only if some listed copy has an empty error
    field, an empty warning field and the expected state; if no copy has,
    the error is "Failed to run the gadget on all nodes: None of them
    succeeded"; and a copy that has neither converged nor reported an
    error or a warning is there only once the window has closed, with an
    entry among the per-node errors: the "No results received" message,
    unless another copy of the same node reported an error. *)
Theorem waitForTraceState_outcome env traceID exp w :
  ∃ wk res w',
    waitForTraceState env traceID exp w = (Some res, w') ∧
    retried env (clock w) traceID exp w wk ∧
    let fetched := (getTraceListFromID env traceID wk).1 in
    let timeout := bool_decide (traceTimeout < clock wk - clock w)%N in
    match fetched.2 with
    | Some err => res = ([], Some err)
    | None =>
        fetched.1 ≠ [] ∧
        (res = (fetched.1, None) ↔ ∃ i, i ∈ fetched.1 ∧ converged exp i) ∧
        ((¬ ∃ i, i ∈ fetched.1 ∧ converged exp i) → res = ([], Some noneSucceeded)) ∧
        (∀ i, i ∈ fetched.1 → pending exp i →
           timeout = true ∧
           ∃ rd msg, classify exp timeout fetched.1 newRound = Some rd ∧
             nodeErrors rd !! Node (Spec i) = Some msg ∧
             (msg = noResultsMessage ∨
              ∃ j, j ∈ fetched.1 ∧ Node (Spec j) = Node (Spec i) ∧
                   OperationError (Status j) = msg ∧ msg ≠ ""))
    end.
Proof.
  destruct (waitForTraceState_returns env traceID exp w) as (res & w' & Hwait).
  assert (Hloop : waitForTraceState_loop env maxRounds (clock w) traceID exp w = (Some res, w'))
    by exact Hwait.
  apply waitForTraceState_loop_last in Hloop as (wk & Hk & Hround).
  exists wk, res, w'. split_and!; [done..|].
  pose proof (waitForTraceState_round_result env (clock w) traceID exp wk) as Hres.
  pose proof (waitForTraceState_round_returns _ _ _ _ _ _ _ Hround) as Hret.
  pose proof (getTraceListFromID_nonempty env traceID wk) as Hne.
  rewrite Hround in Hres. cbn [fst snd] in *.
  destruct (getTraceListFromID env traceID wk) as [[items [err|]] w0]; cbn [fst snd] in *.
  { by injection Hres as ->. }
  set (timeout := bool_decide _) in *.
  destruct Hret as (rd & Hc & _).
  assert (Hnoretry : ¬ (timeout = false ∧ ∃ i, i ∈ items ∧ pending exp i)).
  { rewrite <- classify_None, Hc. done. }
  rewrite decide_False in Hres by (by rewrite Exists_exists).
  split_and!.
  - by apply Hne.
  - rewrite <- Exists_exists. case_decide; simplify_eq; [done|]. split; [done|].
    intros ?; done.
  - rewrite <- Exists_exists. intros Hnone. rewrite decide_False in Hres by done.
    by injection Hres as ->.
  - intros i Hi Hp. assert (timeout = true) as Ht.
    { destruct timeout; [done|]. exfalso. apply Hnoretry. eauto. }
    split; [done|].
    destruct (classify_errors_recorded _ _ _ _ _ i Hc Hi) as [msg Hmsg]; [by right|].
    exists rd, msg. split_and!; [done..|].
    destruct (classify_errors _ _ _ _ _ _ _ Hc Hmsg) as [Hempty|(j & Hj & Hnode & Hj')].
    { cbn in Hempty. by rewrite lookup_empty in Hempty. }
    destruct Hj' as [[??]|(_ & _ & ->)]; [right|by left]. eauto 10.
Qed.

(** C3.  In a round that ends the wait on a listing that succeeded, what
    is written to stderr is the feedback for the warnings, if and only
    if no copy converged ([successNodeCount] is 0), followed by the
    feedback for the errors, which is written in both cases.  In the
    lines written:
    - every listed copy that reported an error, or had not answered when
      the window closed, has a line with the name of its node, or the
      line for all nodes, that carries the error, or the message of the
      timeout, of a listed copy of that node;
    - when no copy converged, every listed copy that reported a warning
      and no error has such a line with the warning of a listed copy of
      that node;
    - every line is such a line for an error or, when no copy converged,
      for a warning: when some copy converged no warning is written.
    A round that ends on a failed listing writes nothing. *)
Theorem waitForTraceState_round_feedback env start traceID exp w res w' :
  waitForTraceState_round env start traceID exp w = (Some res, w') →
  let fetched := (getTraceListFromID env traceID w).1 in
  let timeout := bool_decide (traceTimeout < clock w - start)%N in
  let says node msg line :=
    line = "Failed to run the gadget on node " +:+ fmt_q (runtime env) node +:+ ": "
           +:+ msg +:+ newline ∨
    line = "Failed to run the gadget on all nodes: " +:+ msg +:+ newline in
  let error_of i msg :=
    OperationError (Status i) = msg ∧ msg ≠ "" ∨
    pending exp i ∧ timeout = true ∧ msg = noResultsMessage in
  let warning_of i msg :=
    OperationError (Status i) = "" ∧ OperationWarning (Status i) = msg ∧ msg ≠ "" in
  match fetched.2 with
  | Some _ => stderr w' = stderr w
  | None =>
      ∃ rd, classify exp timeout fetched.1 newRound = Some rd ∧
        (successNodeCount rd = 0 ↔ ¬ ∃ i, i ∈ fetched.1 ∧ converged exp i) ∧
        stderr w' =
          stderr w ++
          (if decide (successNodeCount rd = 0)
           then printTraceFeedback (runtime env) (nodeWarnings rd) (length fetched.1)
           else []) ++
          printTraceFeedback (runtime env) (nodeErrors rd) (length fetched.1) ∧
        (∀ node msg, nodeWarnings rd !! node = Some msg →
           ∃ i, i ∈ fetched.1 ∧ Node (Spec i) = node ∧ OperationError (Status i) = "" ∧
                OperationWarning (Status i) = msg ∧ msg ≠ "") ∧
        (∀ i, i ∈ fetched.1 → OperationError (Status i) = "" →
           OperationWarning (Status i) ≠ "" → is_Some (nodeWarnings rd !! Node (Spec i))) ∧
        ∃ written, stderr w' = stderr w ++ written ∧
          (∀ i, i ∈ fetched.1 → OperationError (Status i) ≠ "" ∨ pending exp i →
             ∃ j msg line, j ∈ fetched.1 ∧ Node (Spec j) = Node (Spec i) ∧ error_of j msg ∧
                           line ∈ written ∧ says (Node (Spec i)) msg line) ∧
          ((¬ ∃ i, i ∈ fetched.1 ∧ converged exp i) →
           ∀ i, i ∈ fetched.1 → OperationError (Status i) = "" →
                OperationWarning (Status i) ≠ "" →
             ∃ j msg line, j ∈ fetched.1 ∧ Node (Spec j) = Node (Spec i) ∧ warning_of j msg ∧
                           line ∈ written ∧ says (Node (Spec i)) msg line) ∧
          (∀ line, line ∈ written →
             ∃ j msg, j ∈ fetched.1 ∧ says (Node (Spec j)) msg line ∧
               (error_of j msg ∨
                (¬ ∃ i, i ∈ fetched.1 ∧ converged exp i) ∧ warning_of j msg))
  end.
Proof.
  intros Hround.
  pose proof (waitForTraceState_round_returns _ _ _ _ _ _ _ Hround) as Hret.
  pose proof (getTraceListFromID_frame env traceID w) as (_ & Herr & _).
  cbn [fst snd] in *. cbn zeta.
  destruct (getTraceListFromID env traceID w) as [[items [err|]] w0]; cbn [fst snd] in *.
  { destruct Hret as [_ ->]. done. }
  set (timeout := bool_decide _) in *.
  destruct Hret as (rd & Hc & Hfinish). exists rd.
  pose proof (classify_count_zero _ _ _ _ Hc) as Hzero.
  destruct (classify_messages _ _ _ _ _ Hc) as [Hne_e Hne_w];
    [apply map_Forall_empty..|].
  assert (Hstderr : stderr w' =
            stderr w ++
            (if decide (successNodeCount rd = 0)
             then printTraceFeedback (runtime env) (nodeWarnings rd) (length items)
             else []) ++
            printTraceFeedback (runtime env) (nodeErrors rd) (length items)).
  { revert Hfinish. unfold finishRound, bind, eprint, ret.
    destruct (decide (successNodeCount rd = 0)); cbn [fst snd];
      intros [= _ <-]; cbn [stderr]; rewrite Herr; by rewrite <- ?(assoc_L (++)). }
  assert (Hworigin : ∀ node msg, nodeWarnings rd !! node = Some msg →
            ∃ i, i ∈ items ∧ Node (Spec i) = node ∧ OperationError (Status i) = "" ∧
                 OperationWarning (Status i) = msg ∧ msg ≠ "").
  { intros node msg Hl.
    destruct (classify_warnings _ _ _ _ _ _ _ Hc Hl) as [Hempty|?]; [|done].
    cbn in Hempty. by rewrite lookup_empty in Hempty. }
  assert (Heorigin : ∀ node msg, nodeErrors rd !! node = Some msg →
            ∃ i, i ∈ items ∧ Node (Spec i) = node ∧
              (OperationError (Status i) = msg ∧ msg ≠ "" ∨
               pending exp i ∧ timeout = true ∧ msg = noResultsMessage)).
  { intros node msg Hl.
    destruct (classify_errors _ _ _ _ _ _ _ Hc Hl) as [Hempty|?]; [|done].
    cbn in Hempty. by rewrite lookup_empty in Hempty. }
  split_and!; [done|done|done|done| |].
  { intros i Hi He Hw. by apply (classify_warnings_recorded _ _ _ _ _ _ Hc). }
  eexists. split; [exact Hstderr|]. split_and!.
  - intros i Hi Hi'.
    destruct (classify_errors_recorded _ _ _ _ _ i Hc Hi Hi') as [msg Hl].
    destruct (Heorigin _ _ Hl) as (j & Hj & Hnode & Hmsg).
    destruct (printTraceFeedback_entry (runtime env) _ (length items) _ _ Hne_e Hl)
      as [Hline|Hline].
    + exists j, msg, (nodeLine (runtime env) (Node (Spec i), msg)).
      split_and!; [done..| |by left].
      apply elem_of_app. by right.
    + exists j, msg, (allNodesLine msg).
      split_and!; [done..| |by right].
      apply elem_of_app. by right.
  - intros Hnone i Hi He Hw.
    destruct (classify_warnings_recorded _ _ _ _ _ _ Hc Hi He Hw) as [msg Hl].
    destruct (Hworigin _ _ Hl) as (j & Hj & Hnode & ? & ? & ?).
    rewrite decide_True by (by apply Hzero).
    destruct (printTraceFeedback_entry (runtime env) _ (length items) _ _ Hne_w Hl)
      as [Hline|Hline].
    + exists j, msg, (nodeLine (runtime env) (Node (Spec i), msg)).
      split_and!; [done..| |by left].
      apply elem_of_app. by left.
    + exists j, msg, (allNodesLine msg).
      split_and!; [done..| |by right].
      apply elem_of_app. by left.
  - intros line [Hline|Hline]%elem_of_app.
    + destruct (decide (successNodeCount rd = 0)) as [Hz|_]; [|by apply elem_of_nil in Hline].
      apply (printTraceFeedback_line _ _ _ _ Hne_w) in Hline as (node & msg & Hl & Hline).
      destruct (Hworigin _ _ Hl) as (j & Hj & <- & Hmsg).
      exists j, msg. split_and!; [done|exact Hline|]. right. split; [|done].
      by apply Hzero.
    + apply (printTraceFeedback_line _ _ _ _ Hne_e) in Hline as (node & msg & Hl & Hline).
      destruct (Heorigin _ _ Hl) as (j & Hj & <- & Hmsg).
      exists j, msg. split_and!; [done|exact Hline|]. by left.
Qed.

End RoundProperties.

Section CreationProperties.

Import utils.

(** C1, as stated, fails when the listing finds no copy of the
    identifier: no copy converges, and the error returned is the one of
    [getTraceListFromID], not "None of them succeeded". *)
Lemma waitForTraceState_no_copies :
  (waitForTraceState (quietEnv ["n1"] (λ _, emptyStatus)) "abc" "Started" emptyWorld).1
    = Some ([], Some ("No traces found for traceID " +:+ quotePlain "abc" +:+ "!")) ∧
  "No traces found for traceID " +:+ quotePlain "abc" +:+ "!" ≠ noneSucceeded.
Proof. split; [by vm_compute|]. intros H. vm_compute in H. discriminate H. Qed.


(** The round on two copies, one with a warning and one with an error. *)
Lemma waitForTraceState_round_feedback_witness :
  let w' := (waitForTraceState_round demoEnv 0 "abc" "Started" demoWorld).2 in
  let fetched := (getTraceListFromID demoEnv "abc" demoWorld).1 in
  let timeout := bool_decide (traceTimeout < clock demoWorld - 0)%N in
  let says node msg line :=
    line = "Failed to run the gadget on node " +:+ fmt_q (runtime demoEnv) node +:+ ": "
           +:+ msg +:+ newline ∨
    line = "Failed to run the gadget on all nodes: " +:+ msg +:+ newline in
  let error_of i msg :=
    OperationError (Status i) = msg ∧ msg ≠ "" ∨
    pending "Started" i ∧ timeout = true ∧ msg = noResultsMessage in
  let warning_of i msg :=
    OperationError (Status i) = "" ∧ OperationWarning (Status i) = msg ∧ msg ≠ "" in
  match fetched.2 with
  | Some _ => stderr w' = stderr demoWorld
  | None =>
      ∃ rd, classify "Started" timeout fetched.1 newRound = Some rd ∧
        (successNodeCount rd = 0 ↔ ¬ ∃ i, i ∈ fetched.1 ∧ converged "Started" i) ∧
        stderr w' =
          stderr demoWorld ++
          (if decide (successNodeCount rd = 0)
           then printTraceFeedback (runtime demoEnv) (nodeWarnings rd) (length fetched.1)
           else []) ++
          printTraceFeedback (runtime demoEnv) (nodeErrors rd) (length fetched.1) ∧
        (∀ node msg, nodeWarnings rd !! node = Some msg →
           ∃ i, i ∈ fetched.1 ∧ Node (Spec i) = node ∧ OperationError (Status i) = "" ∧
                OperationWarning (Status i) = msg ∧ msg ≠ "") ∧
        (∀ i, i ∈ fetched.1 → OperationError (Status i) = "" →
           OperationWarning (Status i) ≠ "" → is_Some (nodeWarnings rd !! Node (Spec i))) ∧
        ∃ written, stderr w' = stderr demoWorld ++ written ∧
          (∀ i, i ∈ fetched.1 → OperationError (Status i) ≠ "" ∨ pending "Started" i →
             ∃ j msg line, j ∈ fetched.1 ∧ Node (Spec j) = Node (Spec i) ∧ error_of j msg ∧
                           line ∈ written ∧ says (Node (Spec i)) msg line) ∧
          ((¬ ∃ i, i ∈ fetched.1 ∧ converged "Started" i) →
           ∀ i, i ∈ fetched.1 → OperationError (Status i) = "" →
                OperationWarning (Status i) ≠ "" →
             ∃ j msg line, j ∈ fetched.1 ∧ Node (Spec j) = Node (Spec i) ∧ warning_of j msg ∧
                           line ∈ written ∧ says (Node (Spec i)) msg line) ∧
          (∀ line, line ∈ written →
             ∃ j msg, j ∈ fetched.1 ∧ says (Node (Spec j)) msg line ∧
               (error_of j msg ∨
                (¬ ∃ i, i ∈ fetched.1 ∧ converged "Started" i) ∧ warning_of j msg))
  end.
Proof.
  apply (waitForTraceState_round_feedback demoEnv 0 "abc" "Started" demoWorld
           ([], Some noneSucceeded)).
  vm_compute. reflexivity.
Defined.

(** What these rounds write: the warning of [n1] and the error of [n2]
    when no copy converged; nothing when [n1] reports a warning and [n2]
    has converged. *)
Example waitForTraceState_round_lines :
  stderr (waitForTraceState_round demoEnv 0 "abc" "Started" demoWorld).2 =
    ["Failed to run the gadget on node " +:+ quotePlain "n1" +:+ ": slow" +:+ newline;
     "Failed to run the gadget on node " +:+ quotePlain "n2" +:+ ": bad" +:+ newline] ∧
  waitForTraceState_round
    (quietEnv ["n1"; "n2"]
       (λ t, if decide (Node (Spec t) = "n1") then statusOf "" "" "slow"
             else statusOf "Started" "" ""))
    0 "abc" "Started" demoWorld
  = (Some ([setStatus (statusOf "" "" "slow") (demoCopy "abc" "n1");
            setStatus (statusOf "Started" "" "") (demoCopy "abc" "n2")], None),
     {| requests := 3; draws := 0; clock := 0;
        traces := traces demoWorld; stderr := [] |}).
Proof. split; by vm_compute. Qed.

(** *** Creation and deletion *)

Implicit Types (trace t : Trace) (nodes : list string).

(** What [createTraces] posts for [trace]: [trace] with some node. *)
Lemma setNode_setNode a b t : setNode a (setNode b t) = setNode a t.
Proof. done. Qed.

Lemma setNode_same t : setNode (Node (Spec t)) t = t.
Proof. by destruct t as [? [] ?]. Qed.

Lemma selected_setNode traceID node t : selected traceID (setNode node t) = selected traceID t.
Proof. done. Qed.

Lemma selected_true traceID t :
  Namespace (ObjectMeta_ t) = "gadget" →
  Labels (ObjectMeta_ t) !! GLOBAL_TRACE_ID = Some traceID →
  selected traceID t.
Proof.
  intros Hns Hl. unfold selected. rewrite !bool_decide_eq_true_2 by done. done.
Qed.

Lemma filter_not_selected_copies traceID (copies : list Trace) :
  Forall (λ t, selected traceID t) copies →
  filter (λ t, ¬ selected traceID t) copies = [].
Proof.
  intros Hall. apply elem_of_nil_inv. intros t [Hn Ht]%list_elem_of_filter.
  rewrite Forall_forall in Hall. by apply Hn, Hall.
Qed.

(** The loop of [createTraces]: the copies it has stored when it
    returns, and what its rollback leaves, by the answer its delete call
    gets. *)
Lemma createTraces_loop_traces env traceNode trace nodes traceID w :
  Labels (ObjectMeta_ trace) !! GLOBAL_TRACE_ID = Some traceID →
  ∃ copies, Forall (λ t, ∃ node, t = setNode node trace) copies ∧
    let out := createTraces_loop env traceNode trace nodes w in
    match out.1 with
    | None => traces out.2 = (traces w ++ copies) ∧ stderr out.2 = stderr w
    | Some _ =>
        ∃ n, match Delete_Error env n with
             | None =>
                 traces out.2 = filter (λ t, ¬ selected traceID t) (traces w ++ copies) ∧
                 stderr out.2 = stderr w
             | Some e =>
                 traces out.2 = (traces w ++ copies) ∧
                 stderr out.2 =
                   (stderr w ++ [deleteErrorLine env e])
             end
    end.
Proof.
  intros Hid. revert trace w Hid.
  induction nodes as [|node nodes IH]; intros trace w Hid.
  - exists []. split; [done|]. simpl. by rewrite app_nil_r.
  - simpl. destruct (bool_decide (traceNode ≠ "") && bool_decide (node ≠ traceNode)).
    { apply IH, Hid. }
    set (trace' := if decide (traceNode = "") then setNode node trace else trace).
    assert (Hcopy : ∃ n, trace' = setNode n trace).
    { unfold trace'. case_decide; [by eexists|]. exists (Node (Spec trace)).
      by rewrite setNode_same. }
    assert (Hid' : Labels (ObjectMeta_ trace') !! GLOBAL_TRACE_ID = Some traceID).
    { destruct Hcopy as [n ->]. done. }
    unfold bind, request. cbn [fst snd].
    destruct (Post_Error env (requests w) trace') as [err|].
    + exists []. split; [done|]. rewrite Hid'. unfold deleteTraces, bind, request, ret.
      cbn [fst snd requests]. exists (S (requests w)).
      destruct (Delete_Error env (S (requests w))); cbn; by rewrite app_nil_r.
    + cbn [fst snd].
      set (w1 := (setTraces _ _).2).
      destruct (IH trace' w1 Hid') as (copies & Hcopies & Hout).
      exists (trace' :: copies). split.
      { constructor; [done|]. destruct Hcopy as [n ->].
        eapply Forall_impl; [exact Hcopies|]. intros t [n' ->]. by exists n'. }
      cbn zeta in Hout.
      destruct (createTraces_loop env traceNode trace' nodes w1) as [[e|] w2];
        cbn [fst snd] in *.
      * destruct Hout as [n Hout]. exists n. subst w1. cbn in Hout.
        by rewrite <- (assoc_L (++)) in Hout.
      * subst w1. cbn in Hout. by rewrite <- (assoc_L (++)) in Hout.
Qed.

(** [createTraces]: before the loop nothing is stored or removed. *)
Lemma createTraces_traces env trace traceID w :
  Labels (ObjectMeta_ trace) !! GLOBAL_TRACE_ID = Some traceID →
  ∃ copies, Forall (λ t, ∃ node, t = setNode node trace) copies ∧
    let out := createTraces env trace w in
    match out.1 with
    | None => traces out.2 = traces w ++ copies ∧ stderr out.2 = stderr w
    | Some _ =>
        (traces out.2 = traces w ∧ stderr out.2 = stderr w) ∨
        ∃ n, match Delete_Error env n with
             | None =>
                 traces out.2 = filter (λ t, ¬ selected traceID t) (traces w ++ copies) ∧
                 stderr out.2 = stderr w
             | Some e =>
                 traces out.2 = traces w ++ copies ∧
                 stderr out.2 = stderr w ++ [deleteErrorLine env e]
             end
    end.
Proof.
  intros Hid. unfold createTraces, bind, request. cbn [fst snd].
  destruct (NewClientsetFromConfigFlags env (requests w)).
  { exists []. split; [done|]. cbn. auto. }
  cbn [requests].
  destruct (Nodes_List env (S (requests w))) as [err|nodes].
  { exists []. split; [done|]. cbn. auto. }
  set (w2 := {| requests := S (S (requests w)) |}).
  pose proof (getRestClient_frame env w2) as (Ht & He & _). cbn zeta in *.
  destruct (getRestClient env w2) as [[err|] w3]; cbn [fst snd] in *.
  { exists []. split; [done|]. cbn. rewrite Ht, He. auto. }
  destruct (createTraces_loop_traces env (Node (Spec trace)) trace nodes traceID w3 Hid)
    as (copies & Hcopies & Hout).
  exists copies. split; [done|]. cbn zeta in *. rewrite Ht, He in Hout.
  destruct (createTraces_loop env (Node (Spec trace)) trace nodes w3) as [[e|] w4];
    cbn [fst snd] in *; [by right|done].
Qed.

(** Drawing the identifier touches nothing but the random source. *)
Lemma randomTraceID_loop_frame env n w :
  let out := randomTraceID_loop env n w in
  traces out.2 = traces w ∧ stderr out.2 = stderr w ∧ requests out.2 = requests w ∧
  clock out.2 = clock w ∧ String.length out.1 = n.
Proof.
  revert w. induction n as [|n IH]; intros w; [done|].
  simpl. unfold bind, Int31n. cbn [fst snd].
  set (w1 := {| draws := S (draws w) |}).
  destruct (IH w1) as (? & ? & ? & ? & ?).
  destruct (randomTraceID_loop env n w1) as [rest w2]. cbn in *.
  split_and!; [done..|]. by f_equal.
Qed.

(** The wait stores and removes nothing. *)
Lemma finishRound_traces env items rd w : traces (finishRound env items rd w).2 = traces w.
Proof. unfold finishRound, bind, eprint, ret. by case_decide. Qed.

Lemma waitForTraceState_round_traces env start traceID exp w :
  traces (waitForTraceState_round env start traceID exp w).2 = traces w.
Proof.
  unfold waitForTraceState_round, bind, now. cbn [fst snd].
  pose proof (getTraceListFromID_frame env traceID w) as (Ht & _). cbn zeta in Ht.
  destruct (getTraceListFromID env traceID w) as [[items [err|]] w1]; cbn [fst snd] in *;
    [done|].
  destruct (classify exp _ items newRound) as [rd|]; unfold ret; cbn [fst snd]; [|done].
  by rewrite finishRound_traces.
Qed.

Lemma waitForTraceState_loop_traces env n start traceID exp w :
  traces (waitForTraceState_loop env n start traceID exp w).2 = traces w.
Proof.
  revert w. induction n as [|n IH]; intros w; [done|].
  simpl. unfold bind.
  pose proof (waitForTraceState_round_traces env start traceID exp w) as Ht.
  destruct (waitForTraceState_round env start traceID exp w) as [[res|] w1]; cbn [fst snd] in *;
    [done|]. by rewrite IH.
Qed.

Lemma waitForTraceState_traces env traceID exp w :
  traces (waitForTraceState env traceID exp w).2 = traces w.
Proof. unfold waitForTraceState, bind, now. cbn [fst snd]. apply waitForTraceState_loop_traces. Qed.

(** What [DeleteTrace] does to the stored copies: nothing, or it
    removes the selected ones. *)
Lemma DeleteTrace_traces env traceID w :
  let client := getRestClient env w in
  let out := DeleteTrace env traceID w in
  traces out.2 =
    match client.1, Delete_Error env (requests client.2) with
    | None, None => filter (λ t, ¬ selected traceID t) (traces w)
    | _, _ => traces w
    end.
Proof.
  unfold DeleteTrace, bind. cbn zeta.
  pose proof (getRestClient_frame env w) as (Ht & _). cbn zeta in *.
  destruct (getRestClient env w) as [[err|] w1]; cbn [fst snd] in *; [done|].
  unfold deleteTraces, bind, request. cbn [fst snd].
  destruct (Delete_Error env (requests w1)); cbn; by rewrite Ht.
Qed.

(** C9. [DeleteTrace] returns an error only when the REST client cannot
    be set up, and then it has made no delete call (the world is the one
    [getRestClient] left).  Otherwise it returns [nil] whatever the
    delete call answers: if the call fails, the copies stay and the
    error is only written to stderr; if it succeeds, the copies that
    carry the identifier are gone and nothing is written. *)
Theorem DeleteTrace_best_effort env traceID w :
  let client := getRestClient env w in
  let out := DeleteTrace env traceID w in
  match client.1 with
  | Some err => out = (Some err, client.2)
  | None =>
      out.1 = None ∧
      match Delete_Error env (requests client.2) with
      | Some e =>
          traces out.2 = traces w ∧ stderr out.2 = stderr w ++ [deleteErrorLine env e]
      | None =>
          traces out.2 = filter (λ t, ¬ selected traceID t) (traces w) ∧
          stderr out.2 = stderr w
      end
  end.
Proof.
  unfold DeleteTrace, bind. cbn zeta.
  pose proof (getRestClient_frame env w) as (Ht & He & _). cbn zeta in *.
  destruct (getRestClient env w) as [[err|] w1]; cbn [fst snd] in *; [done|].
  split; [done|]. unfold deleteTraces, bind, request. cbn [fst snd].
  destruct (Delete_Error env (requests w1)); cbn; by rewrite Ht, He.
Qed.

Lemma getRestClient_ok env w :
  (∀ n, kubeRestConfig env n = None) → (∀ n, UnversionedRESTClientFor env n = None) →
  (getRestClient env w).1 = None.
Proof.
  intros Hk Hu. unfold getRestClient, bind, request. cbn [fst snd].
  rewrite Hk. cbn. by rewrite Hu.
Qed.

Lemma CreateTrace_trace_label config traceID :
  Labels (ObjectMeta_ (CreateTrace_trace config traceID)) !! GLOBAL_TRACE_ID = Some traceID.
Proof. cbn. apply lookup_insert_eq. Qed.

Lemma rollback_filter trace traceID (before copies : list Trace) :
  Namespace (ObjectMeta_ trace) = "gadget" →
  Labels (ObjectMeta_ trace) !! GLOBAL_TRACE_ID = Some traceID →
  Forall (λ t, ∃ node, t = setNode node trace) copies →
  filter (λ t, ¬ selected traceID t) (before ++ copies)
    = filter (λ t, ¬ selected traceID t) before.
Proof.
  intros Hns Hid Hcopies. rewrite filter_app.
  rewrite (filter_not_selected_copies traceID copies); [by rewrite app_nil_r|].
  eapply Forall_impl; [exact Hcopies|]. intros t [node ->].
  rewrite selected_setNode. by apply selected_true.
Qed.

(** C2, amended.  If no delete call fails: when [createTraces] returns
    an error, the stored copies are those stored before the call, without
    the ones that carry the identifier, so nothing the call created
    remains.  [CreateTrace] returns an empty identifier with every
    error, and if in addition the REST client can always be set up, the
    same holds for the copies after it fails, be it in [createTraces] or
    in the wait for the initial state. *)
Theorem rollback_on_failure :
  (∀ env trace traceID w err w',
     Labels (ObjectMeta_ trace) !! GLOBAL_TRACE_ID = Some traceID →
     Namespace (ObjectMeta_ trace) = "gadget" →
     (∀ n, Delete_Error env n = None) →
     createTraces env trace w = (Some err, w') →
     traces w' = traces w ∨
     traces w' = filter (λ t, ¬ selected traceID t) (traces w)) ∧
  (∀ env config w traceID err w',
     CreateTrace env config w = (Some (traceID, Some err), w') →
     traceID = "" ∧
     ((∀ n, Delete_Error env n = None) →
      (∀ n, kubeRestConfig env n = None) →
      (∀ n, UnversionedRESTClientFor env n = None) →
      traces w' = traces w ∨
      traces w' = filter (λ t, ¬ selected (randomTraceID env w).1 t) (traces w))).
Proof.
  split.
  - intros env trace traceID w err w' Hid Hns Hdel Hcreate.
    destruct (createTraces_traces env trace traceID w Hid) as (copies & Hcopies & Hout).
    cbn zeta in Hout. rewrite Hcreate in Hout. cbn [fst snd] in Hout.
    destruct Hout as [[? _]|[n Hout]]; [by left|right].
    rewrite Hdel in Hout. destruct Hout as [-> _]. by apply (rollback_filter trace).
  - intros env config w traceID' err w'. unfold CreateTrace, randomTraceID, bind.
    pose proof (randomTraceID_loop_frame env 16 w) as (Ht0 & _). cbn zeta in Ht0.
    destruct (randomTraceID_loop env 16 w) as [traceID w0]. cbn [fst snd] in *.
    set (trace := CreateTrace_trace config traceID).
    destruct (createTraces_traces env trace traceID w0 (CreateTrace_trace_label _ _))
      as (copies & Hcopies & Hout).
    cbn zeta in Hout.
    destruct (createTraces env trace w0) as [[e|] w1]; cbn [fst snd] in *.
    { intros [= <- <- <-]. split; [done|]. intros Hdel _ _. rewrite <- Ht0.
      destruct Hout as [[? _]|[n Hout]]; [by left|right].
      rewrite Hdel in Hout. destruct Hout as [-> _]. by apply (rollback_filter trace). }
    destruct Hout as [Ht1 _].
    destruct (decide (TraceInitialState config ≠ "")); [|by intros [=]].
    pose proof (waitForTraceState_traces env traceID (TraceInitialState config) w1) as Ht2.
    destruct (waitForTraceState env traceID (TraceInitialState config) w1)
      as [[[items [e|]]|] w2]; cbn [fst snd] in *; [|by intros [=]..].
    pose proof (DeleteTrace_traces env traceID w2) as Ht3. cbn zeta in Ht3.
    intros Hres.
    assert (traceID' = "" ∧ traces w' = traces (DeleteTrace env traceID w2).2) as [-> ->].
    { destruct (DeleteTrace env traceID w2) as [[?|] ?]; cbn in Hres;
        by injection Hres as <- <- <-. }
    split; [done|]. intros Hdel Hk Hu.
    rewrite (getRestClient_ok env w2 Hk Hu), Hdel in Ht3.
    right. rewrite Ht3, Ht2, Ht1, <- Ht0. by apply (rollback_filter trace).
Qed.

(** C2, as stated, fails when the delete call of the rollback fails
    too: the create call fails on [n2], the error is returned, and the
    copy created on [n1] is still stored; the failed delete is only
    written to stderr. *)
Lemma createTraces_delete_fails :
  let env := clusterEnv ["n1"; "n2"] (λ _, emptyStatus) failOnN2 (Some "unreachable") in
  let out := createTraces env (CreateTrace_trace (demoConfig "" "") "abc") emptyWorld in
  out.1 = Some ("Error creating trace on node " +:+ quotePlain "n2" +:+ ": boom") ∧
  traces out.2 = [demoCopy "abc" "n1"] ∧
  selected "abc" (demoCopy "abc" "n1") = true ∧
  stderr out.2 = [deleteErrorLine env "unreachable"].
Proof. cbn zeta. split_and!; by vm_compute. Qed.

(** The create call fails on the second of two nodes, the delete call
    succeeds. *)
Lemma rollback_on_failure_witness :
  let env := clusterEnv ["n1"; "n2"] (λ _, emptyStatus) failOnN2 None in
  let out := createTraces env (CreateTrace_trace (demoConfig "" "") "abc") emptyWorld in
  traces out.2 = traces emptyWorld ∨
  traces out.2 = filter (λ t, ¬ selected "abc" t) (traces emptyWorld).
Proof.
  cbn zeta.
  apply (proj1 rollback_on_failure
           (clusterEnv ["n1"; "n2"] (λ _, emptyStatus) failOnN2 None)
           (CreateTrace_trace (demoConfig "" "") "abc") "abc" emptyWorld
           ("Error creating trace on node " +:+ quotePlain "n2" +:+ ": boom")).
  - by vm_compute.
  - reflexivity.
  - intros n. reflexivity.
  - vm_compute. reflexivity.
Defined.

(** A node name that matches no node is skipped by every iteration. *)
Lemma createTraces_loop_no_match env traceNode trace nodes w :
  traceNode ≠ "" → traceNode ∉ nodes →
  createTraces_loop env traceNode trace nodes w = (None, w).
Proof.
  intros Hne. induction nodes as [|node nodes IH]; intros Hnotin; [done|].
  apply not_elem_of_cons in Hnotin as [Hnode Hrest]. simpl.
  rewrite !bool_decide_eq_true_2 by done. cbn. by apply IH.
Qed.

(** C10.  With a node name that is not empty and is the name of no
    listed node, and no initial state to wait for, [CreateTrace] makes
    no create call (four requests: client set, node list, and the two of
    the REST client), stores no copy, writes nothing, and returns the
    16-character identifier it drew, with a [nil] error. *)
Theorem CreateTrace_unknown_node env config w nodes :
  TraceInitialState config = "" →
  flags_Node (CommonFlags_ config) ≠ "" →
  flags_Node (CommonFlags_ config) ∉ nodes →
  NewClientsetFromConfigFlags env (requests w) = None →
  Nodes_List env (1 + requests w) = inr nodes →
  kubeRestConfig env (2 + requests w) = None →
  UnversionedRESTClientFor env (3 + requests w) = None →
  let out := CreateTrace env config w in
  out.1 = Some ((randomTraceID env w).1, None) ∧
  String.length (randomTraceID env w).1 = 16 ∧
  traces out.2 = traces w ∧ stderr out.2 = stderr w ∧ requests out.2 = 4 + requests w.
Proof.
  intros Hinit Hnode Hnotin Hclient Hnodes Hk Hu. simpl in Hnodes, Hk, Hu.
  unfold CreateTrace, randomTraceID, bind. cbn zeta.
  pose proof (randomTraceID_loop_frame env 16 w) as (Ht & He & Hr & _ & Hlen).
  cbn zeta in *.
  destruct (randomTraceID_loop env 16 w) as [traceID w0]. cbn [fst snd] in *.
  unfold createTraces, getRestClient, bind, request, ret. cbn [fst snd requests].
  rewrite Hr, Hclient. cbn [fst snd requests]. rewrite Hnodes. cbn [fst snd requests].
  rewrite Hk. cbn [fst snd requests]. rewrite Hu. cbn [fst snd requests].
  rewrite createTraces_loop_no_match by done. cbn [fst snd].
  rewrite decide_False by (by intros []). cbn. by rewrite Ht, He.
Qed.

(** The node [ghost] in a cluster of [n1] and [n2]. *)
Lemma CreateTrace_unknown_node_witness :
  let env := quietEnv ["n1"; "n2"] (λ _, emptyStatus) in
  let out := CreateTrace env (demoConfig "ghost" "") emptyWorld in
  out.1 = Some ((randomTraceID env emptyWorld).1, None) ∧
  String.length (randomTraceID env emptyWorld).1 = 16 ∧
  traces out.2 = traces emptyWorld ∧ stderr out.2 = stderr emptyWorld ∧
  requests out.2 = 4 + requests emptyWorld.
Proof.
  apply (CreateTrace_unknown_node (quietEnv ["n1"; "n2"] (λ _, emptyStatus))
           (demoConfig "ghost" "") emptyWorld ["n1"; "n2"]); try reflexivity.
  - vm_compute. discriminate.
  - rewrite !not_elem_of_cons. split_and!; [by vm_compute..|]. apply not_elem_of_nil.
Defined.

(** Deleting and waiting only ever remove copies. *)
Lemma DeleteTrace_subset env traceID w t :
  t ∈ traces (DeleteTrace env traceID w).2 → t ∈ traces w.
Proof.
  pose proof (DeleteTrace_traces env traceID w) as Hd. cbn zeta in Hd. rewrite Hd.
  destruct (getRestClient env w).1; [done|].
  destruct (Delete_Error env _); [done|]. by intros [_ ?]%list_elem_of_filter.
Qed.

(** Every copy in the store after [CreateTrace] was there before, or is
    the trace the call built, on some node. *)
Lemma CreateTrace_copies env config w t :
  t ∈ traces (CreateTrace env config w).2 →
  t ∈ traces w ∨ ∃ node, t = setNode node (CreateTrace_trace config (randomTraceID env w).1).
Proof.
  unfold CreateTrace, randomTraceID, bind.
  pose proof (randomTraceID_loop_frame env 16 w) as (Ht0 & _). cbn zeta in Ht0.
  destruct (randomTraceID_loop env 16 w) as [traceID w0]. cbn [fst snd] in *.
  set (trace := CreateTrace_trace config traceID).
  destruct (createTraces_traces env trace traceID w0 (CreateTrace_trace_label _ _))
    as (copies & Hcopies & Hout).
  cbn zeta in Hout. rewrite Forall_forall in Hcopies.
  assert (Hin : ∀ t', t' ∈ traces w0 ++ copies →
                      t' ∈ traces w ∨ ∃ node, t' = setNode node trace).
  { intros t' [?|?]%elem_of_app; [left; by rewrite <- Ht0|right; auto]. }
  destruct (createTraces env trace w0) as [[e|] w1]; cbn [fst snd] in *.
  { cbn. destruct Hout as [[-> _]|[n Hout]]; [rewrite Ht0; auto|].
    destruct (Delete_Error env n); destruct Hout as [-> _]; [by auto|].
    intros [_ ?]%list_elem_of_filter. auto. }
  destruct Hout as [Ht1 _].
  destruct (decide (TraceInitialState config ≠ "")); unfold ret; cbn [fst snd];
    [|rewrite Ht1; auto].
  pose proof (waitForTraceState_traces env traceID (TraceInitialState config) w1) as Ht2.
  destruct (waitForTraceState env traceID (TraceInitialState config) w1)
    as [[[items [e|]]|] w2]; cbn [fst snd] in *; [|rewrite Ht2, Ht1; by auto..].
  pose proof (DeleteTrace_subset env traceID w2 t) as Hsub.
  destruct (DeleteTrace env traceID w2) as [[?|] w3]; unfold eprint; cbn [fst snd traces] in *;
    intros Hin'%Hsub; rewrite Ht2, Ht1 in Hin'; auto.
Qed.

(** C8.  The filter of the trace [CreateTrace] builds is [nil] if and
    only if namespace, pod name and container name are empty and there
    is no label; otherwise it is present and carries exactly these four
    values.  Every copy the call stores has this filter. *)
Theorem CreateTrace_filter_omitted config :
  let flags := CommonFlags_ config in
  (CreateTrace_filter config = None ↔
     flags_Namespace flags = "" ∧ flags_Podname flags = "" ∧
     flags_Containername flags = "" ∧ flags_Labels flags = ∅) ∧
  (CreateTrace_filter config ≠ None →
     CreateTrace_filter config =
       Some {| filter_Namespace := flags_Namespace flags;
               filter_Podname := flags_Podname flags;
               filter_ContainerName := flags_Containername flags;
               filter_Labels := flags_Labels flags |}) ∧
  (∀ env w t, t ∈ traces (CreateTrace env config w).2 →
     t ∈ traces w ∨ Filter (Spec t) = CreateTrace_filter config).
Proof.
  cbn zeta. split_and!.
  - unfold CreateTrace_filter.
    destruct (decide (flags_Namespace (CommonFlags_ config) = "")) as [->|Hn];
      [|rewrite (bool_decide_eq_true_2 _ Hn); split; [done|by intros [? _]]].
    destruct (decide (flags_Podname (CommonFlags_ config) = "")) as [->|Hp];
      [|rewrite (bool_decide_eq_true_2 _ Hp), orb_true_r; split; [done|by intros (_ & ? & _)]].
    destruct (decide (flags_Containername (CommonFlags_ config) = "")) as [->|Hc];
      [|rewrite (bool_decide_eq_true_2 _ Hc), orb_true_r;
        split; [done|by intros (_ & _ & ? & _)]].
    rewrite !bool_decide_eq_false_2 by (by intros []). cbn.
    rewrite <- map_size_empty_iff.
    case_bool_decide as Hsize; cbn; split; try done; try lia; intros; split_and!; try done; lia.
  - unfold CreateTrace_filter. by case_match.
  - intros env w t [?|[node ->]]%CreateTrace_copies; auto.
Qed.

(** A request with a namespace: the copy stored on [n1]. *)
Lemma CreateTrace_filter_omitted_witness :
  let config :=
    {| GadgetName := "tcpconnect"; Operation := "start"; TraceOutputMode := "Stream";
       TraceOutputState := "Started"; TraceOutput := ""; TraceInitialState := "";
       CommonFlags_ := {| flags_Node := "n1"; flags_Namespace := "default";
                          flags_Podname := ""; flags_Containername := "";
                          flags_Labels := ∅ |} |} in
  let env := quietEnv ["n1"; "n2"] (λ _, emptyStatus) in
  let t := setNode "n1" (CreateTrace_trace config (randomTraceID env emptyWorld).1) in
  t ∈ traces emptyWorld ∨ Filter (Spec t) = CreateTrace_filter config.
Proof.
  intros config env t.
  apply (proj2 (proj2 (CreateTrace_filter_omitted config)) env emptyWorld).
  vm_compute. apply list_elem_of_here.
Defined.

End CreationProperties.

(** * Properties of the tracer *)

Section TracerProperties.

Import tracer.

(** A handle above all those in use closes nothing that is in use. *)
Lemma filter_links_above (l : list Attachment) (n : nat) :
  max_list (link_id <$> l) < n → filter (λ a, link_id a ≠ n) l = l.
Proof.
  induction l as [|a l IH]; [done|]. rewrite fmap_cons. intros Hn. simpl in Hn.
  rewrite filter_cons_True by lia. rewrite IH by lia. done.
Qed.

Lemma filter_collections_above (l : list Collection) (n : nat) :
  max_list (coll_id <$> l) < n → filter (λ c, coll_id c ≠ n) l = l.
Proof.
  induction l as [|c l IH]; [done|]. rewrite fmap_cons. intros Hn. simpl in Hn.
  rewrite filter_cons_True by lia. rewrite IH by lia. done.
Qed.

(** Closing the handles that [install] got: each is above every handle
    that was in use before the call. *)
Ltac close_links L C :=
  repeat first
    [ rewrite (filter_links_above L) by lia
    | rewrite (filter_collections_above C) by lia
    | rewrite filter_cons_False by (cbn; lia)
    | rewrite filter_cons_True by (cbn; lia)
    | match goal with
      | |- context [decide (?a ≠ ?b)] =>
          first [rewrite (decide_False (P := a ≠ b)) by lia
                |rewrite (decide_True (P := a ≠ b)) by lia]
      end ].

(** C5.  The error of [NewTracer] is the error of the first step of
    [install] that fails, in the order of the calls (loading the spec,
    rewriting the constants, loading the collection, the four
    attachments of the mode, creating the perf reader), behind the text
    [install] puts before it; there is none when no step fails.  With an
    error [NewTracer] returns [nil], and every attachment of this call
    has been released before it returns: the kernel holds the links and
    readers it held before the call, and, unless the [Close] of the
    collection fails, exactly what it held before the call.  Without an
    error the four hooks of the mode are attached. *)
Theorem NewTracer_all_or_nothing (f : Faults) (c : Config) (k : Kernel) :
  let out := NewTracer f c k in
  let attachments :=
    [(Kprobe "tcp_v4_connect", "error attaching program: ");
     (Kprobe "tcp_v6_connect", "error attaching program: ")] ++
    (if CalculateLatency c
     then [(Tracepoint "tcp" "tcp_destroy_sock", "error attaching program: ");
           (Kprobe "tcp_rcv_state_process", "attaching program: ")]
     else [(Kretprobe "tcp_v4_connect", "error attaching program: ");
           (Kretprobe "tcp_v6_connect", "error attaching program: ")]) in
  let steps :=
    [(loadTcpconnect_err f, "failed to load ebpf program: ");
     (RewriteConstants_err f, "error RewriteConstants: ");
     (LoadAndAssign_err f, "failed to load ebpf program: ")] ++
    ((λ a : Hook * string, (attach_err f a.1, a.2)) <$> attachments) ++
    [(NewReader_err f, "error creating perf ring buffer: ")] in
  out.1.2 = head (omap (λ s : option string * string, (λ err, s.2 +:+ err) <$> s.1) steps) ∧
  match out.1.2 with
  | Some err =>
      out.1.1 = None ∧ links out.2 = links k ∧ readers out.2 = readers k ∧
      (objs_Close_err f = None → out.2 = k)
  | None =>
      ∃ t, out.1.1 = Some t ∧ install f (newTracer c) k = ((None, t), out.2) ∧
           link_hook <$> links out.2 =
             (if CalculateLatency c
              then [Kprobe "tcp_rcv_state_process"; Tracepoint "tcp" "tcp_destroy_sock"]
              else [Kretprobe "tcp_v6_connect"; Kretprobe "tcp_v4_connect"]) ++
             [Kprobe "tcp_v6_connect"; Kprobe "tcp_v4_connect"] ++ (link_hook <$> links k)
  end.
Proof.
  destruct f as [f1 f2 f3 fa f5 fc], c as [mm cl ml], k as [L C R].
  unfold NewTracer, install, install_mode, LoadAndAssign, attach, NewReader, close, objs_Close,
    CloseLink, fresh.
  cbn.
  destruct f1; [done|]. destruct f2; [done|]. destruct f3; [done|]. cbn.
  destruct cl; cbn.
  - destruct (fa (Kprobe "tcp_v4_connect")); cbn.
    { destruct fc; cbn; split_and!; try done; try (intros [=]); try intros _;
        try f_equal; by close_links L C. }
    destruct (fa (Kprobe "tcp_v6_connect")); cbn.
    { destruct fc; cbn; split_and!; try done; try (intros [=]); try intros _;
        try f_equal; by close_links L C. }
    destruct (fa (Tracepoint "tcp" "tcp_destroy_sock")); cbn.
    { destruct fc; cbn; split_and!; try done; try (intros [=]); try intros _;
        try f_equal; by close_links L C. }
    destruct (fa (Kprobe "tcp_rcv_state_process")); cbn.
    { destruct fc; cbn; split_and!; try done; try (intros [=]); try intros _;
        try f_equal; by close_links L C. }
    destruct f5; cbn.
    { destruct fc; cbn; split_and!; try done; try (intros [=]); try intros _;
        try f_equal; by close_links L C. }
    split; [done|]. eexists. split_and!; done.
  - destruct (fa (Kprobe "tcp_v4_connect")); cbn.
    { destruct fc; cbn; split_and!; try done; try (intros [=]); try intros _;
        try f_equal; by close_links L C. }
    destruct (fa (Kprobe "tcp_v6_connect")); cbn.
    { destruct fc; cbn; split_and!; try done; try (intros [=]); try intros _;
        try f_equal; by close_links L C. }
    destruct (fa (Kretprobe "tcp_v4_connect")); cbn.
    { destruct fc; cbn; split_and!; try done; try (intros [=]); try intros _;
        try f_equal; by close_links L C. }
    destruct (fa (Kretprobe "tcp_v6_connect")); cbn.
    { destruct fc; cbn; split_and!; try done; try (intros [=]); try intros _;
        try f_equal; by close_links L C. }
    destruct f5; cbn.
    { destruct fc; cbn; split_and!; try done; try (intros [=]); try intros _;
        try f_equal; by close_links L C. }
    split; [done|]. eexists. split_and!; done.
Qed.

(** [install] itself releases nothing: when the perf reader cannot be
    created, the four attachments and the collection are still there when
    it returns; it is the [close] of [NewTracer] that releases them. *)
Example install_leaves_attachments :
  let f := {| loadTcpconnect_err := None; RewriteConstants_err := None;
              LoadAndAssign_err := None; attach_err := λ _, None;
              NewReader_err := Some "too many open files";
              objs_Close_err := None |} in
  let c := {| MountnsMap := None; CalculateLatency := false; MinLatency := 0 |} in
  let k := {| links := []; collections := []; readers := [] |} in
  (install f (newTracer c) k).1.1 = Some "error creating perf ring buffer: too many open files" ∧
  length (links (install f (newTracer c) k).2) = 4 ∧
  length (collections (install f (newTracer c) k).2) = 1 ∧
  NewTracer f c k = ((None, Some "error creating perf ring buffer: too many open files"), k).
Proof. cbn zeta. split_and!; by vm_compute. Qed.

Section RunProperties.

Context {Payload : Type} (decode : list Byte.byte → Payload).

Implicit Types (enricher : option (Payload → Payload))
  (reads pre rest : list (ReadError + PerfRecord)) (events evs : list (@Event Payload)).

(** A turn returns only on a read error, with the events of the two
    cases. *)
Lemma run_turn_Return enricher read evs :
  run_turn decode enricher read = Return evs ↔
  ∃ err, read = inl err ∧
    evs = if read_error_is_closed err then []
          else [Base_Err ("Error reading perf ring buffer: " +:+ read_error_text err)].
Proof.
  destruct read as [err|record]; simpl.
  - split.
    + intros H. exists err. split; [done|]. destruct (read_error_is_closed err); by injection H.
    + intros (? & [= <-] & ->). by destruct (read_error_is_closed err).
  - split; [|by intros (? & [=] & _)].
    case_bool_decide; [done|]. by destruct (RawSample record).
Qed.

(** A turn panics only on a record without lost samples whose raw sample
    is empty. *)
Lemma run_turn_Panic enricher read :
  run_turn decode enricher read = Panic ↔
  ∃ record, read = inr record ∧ LostSamples record = 0%N ∧ RawSample record = [].
Proof.
  destruct read as [err|record]; simpl.
  - split; [by destruct (read_error_is_closed err)|by intros (? & [=] & _)].
  - case_bool_decide as Hlost.
    + split; [done|]. intros (? & [= <-] & ? & _). lia.
    + destruct (RawSample record) eqn:Hraw; split; try done.
      * intros _. exists record. split_and!; [done|lia|done].
      * intros (? & [= <-] & _ & ?). congruence.
Qed.

(** The turn on a record that the reader delivers passes one event to
    the callback and the loop goes on. *)
Lemma run_turn_deliverable enricher record :
  deliverable record → ∃ ev, run_turn decode enricher (inr record) = Continue ev.
Proof.
  intros [Hlost|Hraw]; simpl.
  - rewrite bool_decide_eq_true_2 by done. by eexists.
  - case_bool_decide; [by eexists|]. destruct (RawSample record); [done|by eexists].
Qed.

(** The loop returns exactly at the first read that fails, after one
    event for each record read before. *)
Lemma run_Returned enricher reads events :
  run decode enricher reads = (events, Returned) ↔
  ∃ records evs err rest,
    reads = (inr <$> records) ++ inl err :: rest ∧
    Forall2 (λ record ev, run_turn decode enricher (inr record) = Continue ev) records evs ∧
    events = evs ++
      (if read_error_is_closed err then []
       else [Base_Err ("Error reading perf ring buffer: " +:+ read_error_text err)]).
Proof.
  split.
  - revert events. induction reads as [|read reads IH]; intros events; simpl; [done|].
    destruct (run_turn decode enricher read) as [ev|evs0|] eqn:Hturn; [| |done].
    + destruct (run decode enricher reads) as [evs' e] eqn:Hrun. simpl.
      intros [= <- ->].
      destruct (IH evs' eq_refl) as (records & evs & err & rest & -> & Hpre & ->).
      destruct read as [err0|record].
      { simpl in Hturn. by destruct (read_error_is_closed err0). }
      exists (record :: records), (ev :: evs), err, rest. split_and!; [done| |done].
      by constructor.
    + intros [= <-]. apply run_turn_Return in Hturn as (err & -> & ->).
      exists [], [], err, reads. split_and!; [done|constructor|done].
  - intros (records & evs & err & rest & -> & Hpre & ->).
    induction Hpre as [|record ev records evs Hturn _ IH].
    + simpl. by destruct (read_error_is_closed err).
    + rewrite fmap_cons. cbn [app run]. rewrite Hturn, IH. done.
Qed.

(** C6.  On what the perf reader delivers, the loop of [run] ends in one
    way only, by returning, and it returns exactly at the first read
    that fails: on the reader-closed error without calling the callback
    for it, on any other error after calling it exactly once, with an
    error-kind event that carries the text of the error.  The events
    before are those of the records read before, one for each; as long
    as no read fails the loop goes on reading. *)
Theorem run_returns enricher reads :
  Forall (λ read, ∀ record, read = inr record → deliverable record) reads →
  let out := run decode enricher reads in
  out.2 ≠ Panicked ∧
  (out.2 = Returned ↔ ∃ err, inl err ∈ reads) ∧
  ∀ records err rest,
    reads = (inr <$> records) ++ inl err :: rest →
    ∃ evs,
      Forall2 (λ record ev, run_turn decode enricher (inr record) = Continue ev) records evs ∧
      out =
        (evs ++
           (if read_error_is_closed err then []
            else [Base_Err ("Error reading perf ring buffer: " +:+ read_error_text err)]),
         Returned).
Proof.
  intros Hreads. cbn zeta.
  assert (Hrun : ∀ reads, Forall (λ read, ∀ record, read = inr record → deliverable record) reads →
            (run decode enricher reads).2 ≠ Panicked ∧
            ((run decode enricher reads).2 = Returned ↔ ∃ err, inl err ∈ reads)).
  { clear. induction 1 as [|read reads0 Hread _ IH]; simpl.
    { split; [done|]. split; [done|]. intros [err Hin]. by apply elem_of_nil in Hin. }
    destruct read as [err|record].
    - simpl. destruct (read_error_is_closed err); simpl;
        (split; [done|]); (split; [intros _; exists err; left|done]).
    - destruct (run_turn_deliverable enricher record (Hread record eq_refl)) as [ev Hev].
      rewrite Hev. cbn [fst snd]. destruct IH as [IH1 IH2]. split; [done|].
      rewrite IH2. split; intros [err Hin]; exists err.
      + by right.
      + by apply elem_of_cons in Hin as [[=]|?]. }
  destruct (Hrun reads Hreads) as [Hnp Hret]. split_and!; [done..|].
  intros records err rest ->.
  assert (∃ evs, Forall2 (λ record ev, run_turn decode enricher (inr record) = Continue ev)
                   records evs) as [evs Hevs].
  { apply Forall_app in Hreads as [Hrecords _]. clear -Hrecords.
    induction records as [|record records IH]; [by exists []|].
    rewrite fmap_cons in Hrecords. apply Forall_cons in Hrecords as [Hrecord Hrecords].
    destruct (IH Hrecords) as [evs Hevs].
    destruct (run_turn_deliverable enricher record (Hrecord record eq_refl)) as [ev Hev].
    exists (ev :: evs). by constructor. }
  exists evs. split; [done|].
  apply run_Returned. exists records, evs, err, rest. done.
Qed.

(** The loop ends in a panic exactly at the first record without lost
    samples whose raw sample is empty, if no read error comes before. *)
Lemma run_panics enricher reads events :
  run decode enricher reads = (events, Panicked) ↔
  ∃ pre record rest,
    reads = pre ++ inr record :: rest ∧
    Forall2 (λ read ev, run_turn decode enricher read = Continue ev) pre events ∧
    LostSamples record = 0%N ∧ RawSample record = [].
Proof.
  split.
  - revert events. induction reads as [|read reads IH]; intros events; simpl; [done|].
    destruct (run_turn decode enricher read) as [ev|evs0|] eqn:Hturn; [|done|].
    + destruct (run decode enricher reads) as [evs' e] eqn:Hrun. simpl.
      intros [= <- ->]. destruct (IH evs' eq_refl) as (pre & record & rest & -> & Hpre & ? & ?).
      exists (read :: pre), record, rest. split_and!; [done| |done..]. by constructor.
    + intros [= <-]. apply run_turn_Panic in Hturn as (record & -> & ? & ?).
      exists [], record, reads. split_and!; [done|constructor|done..].
  - intros (pre & record & rest & -> & Hpre & Hlost & Hraw).
    induction Hpre as [|read ev pre evs Hturn _ IH]; simpl.
    + rewrite bool_decide_eq_false_2 by lia. by rewrite Hraw.
    + rewrite Hturn, IH. done.
Qed.

(** C7.  On a record with lost samples the loop passes exactly one
    warning-kind event with the count to the callback, does not decode
    the record (the event has no payload, whatever the raw sample), and
    goes on with the following reads. *)
Theorem run_lost_samples enricher record rest :
  (0 < LostSamples record)%N →
  run decode enricher (inr record :: rest) =
    (Base_Warn ("lost " +:+ pretty (LostSamples record) +:+ " samples")
       :: (run decode enricher rest).1,
     (run decode enricher rest).2).
Proof.
  intros Hlost. simpl. by rewrite bool_decide_eq_true_2.
Qed.

End RunProperties.

(** Two samples and a lost-sample notification, then the reader is
    closed. *)
Lemma run_returns_witness :
  let sample := inr {| RawSample := [Byte.x02; Byte.x00]; LostSamples := 0 |} in
  let lost := inr {| RawSample := []; LostSamples := 3 |} in
  let closed := inl {| read_error_text := "perf ringbuffer: file already closed";
                       read_error_is_closed := true |} in
  let out := run (λ raw, raw) None [sample; lost; sample; closed; sample] in
  out.2 ≠ Panicked ∧ (out.2 = Returned ↔ ∃ err, inl err ∈ [sample; lost; sample; closed; sample]) ∧
  length out.1 = 3.
Proof.
  intros sample lost closed out.
  destruct (run_returns (λ raw, raw) None [sample; lost; sample; closed; sample])
    as (Hnp & Hret & _).
  { subst sample lost closed.
    repeat (apply List.Forall_cons; [|]); [..|apply List.Forall_nil];
      intros record Heq; try discriminate Heq; injection Heq as <-;
      first [by left|right; discriminate]. }
  split_and!; [exact Hnp|exact Hret|reflexivity].
Defined.

(** Without that hypothesis: a record without lost samples whose raw
    sample is empty, which the reader does not deliver, would end the
    loop at [&record.RawSample[0]]. *)
Example run_empty_sample_panics :
  run (λ raw, raw) None [inr {| RawSample := []; LostSamples := 0 |}] = ([], Panicked).
Proof. reflexivity. Qed.

(** Three lost samples, then the reader is closed. *)
Lemma run_lost_samples_witness :
  run (λ raw, raw) None
      [inr {| RawSample := []; LostSamples := 3 |};
       inl {| read_error_text := "file already closed"; read_error_is_closed := true |}]
    = ([Base_Warn "lost 3 samples"], Returned).
Proof.
  apply (run_lost_samples (λ raw, raw) None {| RawSample := []; LostSamples := 3 |}).
  reflexivity.
Defined.

End TracerProperties.

(** ** Properties of the rest of the code *)

(** *** The identifier and the label selector *)

Section Identifier.

Import utils.

Lemma String_get_elem (n : nat) (s : string) c :
  String.get n s = Some c → c ∈ String.list_ascii_of_string s.
Proof.
  revert n. induction s as [|a s IH]; intros n; simpl; [done|].
  destruct n as [|n].
  - intros [= ->]. apply list_elem_of_here.
  - intros H. apply list_elem_of_further. by eapply IH.
Qed.

Lemma String_get_lt (n : nat) (s : string) :
  n < String.length s → is_Some (String.get n s).
Proof.
  revert n. induction s as [|a s IH]; intros n; simpl; [lia|].
  destruct n as [|n]; [eauto|]. intros ?. apply IH. lia.
Qed.

Lemma charAt_allowed (x : N) :
  charAt (x `mod` N.of_nat (String.length allowedCharacters))
    ∈ String.list_ascii_of_string allowedCharacters.
Proof.
  unfold charAt.
  destruct (String_get_lt
              (N.to_nat (x `mod` N.of_nat (String.length allowedCharacters)))
              allowedCharacters) as [c Hc].
  { assert (String.length allowedCharacters = 62) as -> by reflexivity.
    pose proof (N.mod_upper_bound x (N.of_nat 62)). lia. }
  rewrite Hc. by eapply String_get_elem.
Qed.

Lemma randomTraceID_loop_chars env n w :
  let out := randomTraceID_loop env n w in
  Forall (λ c, c ∈ String.list_ascii_of_string allowedCharacters)
         (String.list_ascii_of_string out.1) ∧
  draws out.2 = n + draws w.
Proof.
  revert w. induction n as [|n IH]; intros w; [by split|].
  simpl. unfold bind, Int31n. cbn [fst snd].
  set (w1 := {| draws := S (draws w) |}).
  destruct (IH w1) as [Hall Hdraws].
  destruct (randomTraceID_loop env n w1) as [rest w2]. unfold ret. cbn [fst snd] in *. split.
  - apply Forall_cons. split; [apply charAt_allowed|done].
  - rewrite Hdraws. subst w1. cbn [draws]. lia.
Qed.

(** X1.  [randomTraceID] returns 16 characters, each of
    [allowedCharacters], for 16 random draws; it makes no request and
    writes nothing. *)
Theorem randomTraceID_alphanumeric env w :
  let out := randomTraceID env w in
  String.length out.1 = 16 ∧
  Forall (λ c, c ∈ String.list_ascii_of_string allowedCharacters)
         (String.list_ascii_of_string out.1) ∧
  draws out.2 = 16 + draws w ∧
  requests out.2 = requests w ∧ traces out.2 = traces w ∧ stderr out.2 = stderr w.
Proof.
  cbn zeta. unfold randomTraceID.
  pose proof (randomTraceID_loop_frame env 16 w) as (? & ? & ? & _ & ?).
  pose proof (randomTraceID_loop_chars env 16 w) as [? ?].
  split_and!; done.
Qed.

End Identifier.

Section Selector.

Import utils.

Lemma string_app_cons a (s t : string) : String a s +:+ t = String a (s +:+ t).
Proof. done. Qed.

Lemma string_app_assoc (s t u : string) : (s +:+ t) +:+ u = s +:+ (t +:+ u).
Proof. induction s as [|a s IH]; [done|]. by rewrite !string_app_cons, IH. Qed.

Lemma string_app_empty_inv (s t : string) : s +:+ t = "" → s = "" ∧ t = "".
Proof. by destruct s. Qed.

Lemma labelsFromFilter_loop_comma (labels : string) (entries : list (string * string)) :
  labelsFromFilter_loop labels "," entries =
    foldl (λ acc item, acc +:+ "," +:+ item) labels
          (requirement <$> filter (λ e, e.2 ≠ "") entries).
Proof.
  revert labels. induction entries as [|[k v] entries IH]; intros labels; [done|].
  simpl. destruct (decide (v = "")) as [->|Hv].
  - rewrite filter_cons_False by (by intros []). apply IH.
  - rewrite filter_cons_True by done. rewrite IH. done.
Qed.

Lemma foldl_comma (x : string) (items : list string) :
  foldl (λ acc item, acc +:+ "," +:+ item) x items = String.concat "," (x :: items).
Proof.
  revert x. induction items as [|y items IH]; intros x; [done|].
  simpl foldl. rewrite IH.
  change (String.concat "," (x :: y :: items))
    with (x +:+ "," +:+ String.concat "," (y :: items)).
  destruct items as [|z items].
  - done.
  - change (String.concat "," ((x +:+ "," +:+ y) :: z :: items))
      with ((x +:+ "," +:+ y) +:+ "," +:+ String.concat "," (z :: items)).
    change (String.concat "," (y :: z :: items))
      with (y +:+ "," +:+ String.concat "," (z :: items)).
    by rewrite !string_app_assoc.
Qed.

Lemma labelsFromFilter_loop_join (entries : list (string * string)) :
  labelsFromFilter_loop "" "" entries =
    String.concat "," (requirement <$> filter (λ e, e.2 ≠ "") entries).
Proof.
  induction entries as [|[k v] entries IH]; [done|].
  simpl. destruct (decide (v = "")) as [->|Hv].
  - rewrite filter_cons_False by (by intros []). apply IH.
  - rewrite filter_cons_True by done.
    rewrite labelsFromFilter_loop_comma, fmap_cons, <- foldl_comma. done.
Qed.

(** X2.  [labelsFromFilter] is the list of [name=value] of the entries
    with a value, in the order of the [range], separated by commas:
    no comma first or last, no entry for an empty value. *)
Theorem labelsFromFilter_join (order : RangeOrder) (filter_ : gmap string string) :
  labelsFromFilter order filter_ =
    String.concat ","
      (requirement <$> filter (λ e, e.2 ≠ "") (range_of order filter_)).
Proof. apply labelsFromFilter_loop_join. Qed.

Lemma concat_empty_inv (sep x : string) (xs : list string) :
  String.concat sep (x :: xs) = "" → x = "".
Proof.
  destruct xs as [|y xs]; [done|].
  change (String.concat sep (x :: y :: xs)) with (x +:+ sep +:+ String.concat sep (y :: xs)).
  by intros [? _]%string_app_empty_inv.
Qed.

(** X3.  The selector of [labelsFromFilter] is the empty string exactly
    when no entry of the filter has a value. *)
Theorem labelsFromFilter_empty (order : RangeOrder) (filter_ : gmap string string) :
  labelsFromFilter order filter_ = "" ↔ map_Forall (λ _ v, v = "") filter_.
Proof.
  unfold labelsFromFilter. rewrite labelsFromFilter_loop_join.
  rewrite <- (range_of_values_Forall order (λ v, v = "")), Forall_fmap.
  split.
  - intros Hempty. apply Forall_forall. intros [k v] Hin. simpl.
    destruct (decide (v = "")) as [|Hv]; [done|]. exfalso.
    assert (Hf : (k, v) ∈ filter (λ e : string * string, e.2 ≠ "") (range_of order filter_))
      by (by apply list_elem_of_filter).
    destruct (filter _ (range_of order filter_)) as [|e es]; [by apply elem_of_nil in Hf|].
    rewrite fmap_cons in Hempty. apply concat_empty_inv in Hempty.
    unfold requirement in Hempty.
    apply string_app_empty_inv in Hempty as [_ Hempty]. done.
  - intros Hall.
    assert (filter (λ e : string * string, e.2 ≠ "") (range_of order filter_) = []) as ->; [|done].
    apply elem_of_nil_inv. intros [k v] [Hv Hin]%list_elem_of_filter.
    rewrite Forall_forall in Hall. by apply Hv, (Hall (k, v)).
Qed.

End Selector.

(** *** Waiting, displaying and cleaning up *)

Section Polling.

Import utils.

Lemma getTraceListFromID_requests env traceID w :
  requests (getTraceListFromID env traceID w).2 ≤ 3 + requests w ∧
  draws (getTraceListFromID env traceID w).2 = draws w.
Proof.
  unfold getTraceListFromID, getTraceListFromOptions, getRestClient, bind, request, ret.
  cbn [fst snd requests].
  destruct (kubeRestConfig env (requests w)); cbn; [lia|].
  destruct (UnversionedRESTClientFor env (S (requests w))); cbn; [lia|].
  destruct (Get_Error env (S (S (requests w)))); cbn; [lia|].
  case_decide; cbn; lia.
Qed.

Lemma finishRound_requests env items rd w :
  requests (finishRound env items rd w).2 = requests w ∧
  draws (finishRound env items rd w).2 = draws w.
Proof. unfold finishRound, bind, eprint, ret. by case_decide. Qed.

Lemma waitForTraceState_round_requests env start traceID exp w :
  requests (waitForTraceState_round env start traceID exp w).2 ≤ 3 + requests w ∧
  draws (waitForTraceState_round env start traceID exp w).2 = draws w.
Proof.
  unfold waitForTraceState_round, bind, now. cbn [fst snd].
  pose proof (getTraceListFromID_requests env traceID w) as Hr.
  destruct (getTraceListFromID env traceID w) as [[items [err|]] w1]; cbn [fst snd] in *;
    [done|].
  destruct (classify exp _ items newRound) as [rd|]; unfold ret, sleep; cbn [fst snd];
    [|done].
  pose proof (finishRound_requests env items rd w1) as [-> ->]. done.
Qed.

Lemma waitForTraceState_loop_requests env n start traceID exp w :
  requests (waitForTraceState_loop env n start traceID exp w).2 ≤ 3 * n + requests w ∧
  draws (waitForTraceState_loop env n start traceID exp w).2 = draws w.
Proof.
  revert w. induction n as [|n IH]; intros w; [cbn; lia|].
  simpl waitForTraceState_loop. unfold bind.
  pose proof (waitForTraceState_round_requests env start traceID exp w) as Hr.
  destruct (waitForTraceState_round env start traceID exp w) as [[res|] w1];
    cbn [fst snd] in *.
  - unfold ret. cbn. lia.
  - destruct (IH w1) as [? ->]. lia.
Qed.

(** X4.  [waitForTraceState] returns after at most [maxRounds] listings
    of three requests each (two for the REST client, one for the list);
    it only reads: the stored copies are unchanged, and it draws no
    random number. *)
Theorem waitForTraceState_polls env traceID exp w :
  let out := waitForTraceState env traceID exp w in
  is_Some out.1 ∧
  requests out.2 ≤ 3 * maxRounds + requests w ∧
  traces out.2 = traces w ∧ draws out.2 = draws w.
Proof.
  cbn zeta. split_and!.
  - destruct (waitForTraceState_returns env traceID exp w) as (res & w' & ->). by eexists.
  - apply (waitForTraceState_loop_requests env maxRounds (clock w) traceID exp w).
  - apply waitForTraceState_traces.
  - apply (waitForTraceState_loop_requests env maxRounds (clock w) traceID exp w).
Qed.

(** A successful wait returns the copies of its last listing, one of
    which has converged. *)
Lemma waitForTraceState_success env traceID exp w items w1 :
  waitForTraceState env traceID exp w = (Some (items, None), w1) →
  Exists (converged exp) items.
Proof.
  intros Hwait.
  assert (Hloop : waitForTraceState_loop env maxRounds (clock w) traceID exp w
                  = (Some (items, None), w1)) by exact Hwait.
  apply waitForTraceState_loop_last in Hloop as (wk & _ & Hround).
  pose proof (waitForTraceState_round_result env (clock w) traceID exp wk) as Hres.
  rewrite Hround in Hres. cbn [fst snd] in Hres.
  destruct (getTraceListFromID env traceID wk).1 as [fetched [err|]]; cbn [fst snd] in Hres;
    [done|].
  repeat case_decide; by simplify_eq.
Qed.

(** X5.  [PrintTraceOutputFromStatus] returns the error of the wait
    without calling [customResultsDisplay]; otherwise it calls it once,
    on the copies of the last listing, of which at least one has
    converged, and returns its result. *)
Theorem PrintTraceOutputFromStatus_display env traceID exp
    (customResultsDisplay : list Trace → M (option string)) w :
  ∃ res w1,
    waitForTraceState env traceID exp w = (Some res, w1) ∧
    match res.2 with
    | Some err =>
        PrintTraceOutputFromStatus env traceID exp customResultsDisplay w
          = (Some (Some err), w1)
    | None =>
        Exists (converged exp) res.1 ∧
        PrintTraceOutputFromStatus env traceID exp customResultsDisplay w
          = (Some (customResultsDisplay res.1 w1).1, (customResultsDisplay res.1 w1).2)
    end.
Proof.
  destruct (waitForTraceState_returns env traceID exp w) as ([items err] & w1 & Hwait).
  exists (items, err), w1. split; [done|].
  unfold PrintTraceOutputFromStatus, bind. rewrite Hwait. cbn [fst snd].
  destruct err as [err|]; [done|]. split; [|done].
  by eapply waitForTraceState_success.
Qed.

End Polling.

Section RunAndDelete.

Import utils.

(** The stored copies after [CreateTrace], by its result. *)
Lemma CreateTrace_outcome env config w :
  let traceID := (randomTraceID env w).1 in
  let out := CreateTrace env config w in
  ∃ copies,
    Forall (λ t, ∃ node, t = setNode node (CreateTrace_trace config traceID)) copies ∧
    match out.1 with
    | Some (traceID', None) => traceID' = traceID ∧ traces out.2 = traces w ++ copies
    | Some (_, Some _) =>
        (∀ n, Delete_Error env n = None) →
        (∀ n, kubeRestConfig env n = None) →
        (∀ n, UnversionedRESTClientFor env n = None) →
        traces out.2 = traces w ∨
        traces out.2 = filter (λ t, ¬ selected traceID t) (traces w)
    | None => False
    end.
Proof.
  cbn zeta. unfold CreateTrace, randomTraceID, bind.
  pose proof (randomTraceID_loop_frame env 16 w) as (Ht0 & _). cbn zeta in Ht0.
  destruct (randomTraceID_loop env 16 w) as [traceID w0]. cbn [fst snd] in *.
  set (trace := CreateTrace_trace config traceID).
  destruct (createTraces_traces env trace traceID w0 (CreateTrace_trace_label _ _))
    as (copies & Hcopies & Hout).
  exists copies. split; [done|]. cbn zeta in Hout.
  destruct (createTraces env trace w0) as [[e|] w1]; cbn [fst snd] in *.
  { unfold ret. cbn [fst snd]. intros Hdel _ _. rewrite <- Ht0.
    destruct Hout as [[? _]|[n Hout]]; [by left|right].
    rewrite Hdel in Hout. destruct Hout as [-> _]. by apply (rollback_filter trace). }
  destruct Hout as [Ht1 _].
  destruct (decide (TraceInitialState config ≠ "")); unfold ret; cbn [fst snd];
    [|by rewrite Ht1, Ht0].
  pose proof (waitForTraceState_traces env traceID (TraceInitialState config) w1) as Ht2.
  destruct (waitForTraceState_returns env traceID (TraceInitialState config) w1)
    as ([items err] & w2 & Hwait).
  rewrite Hwait in *. destruct err as [e|]; cbn [fst snd] in *; [|by rewrite Ht2, Ht1, Ht0].
  pose proof (DeleteTrace_traces env traceID w2) as Ht3. cbn zeta in Ht3.
  intros Hdel Hk Hu. rewrite (getRestClient_ok env w2 Hk Hu), Hdel in Ht3.
  destruct (DeleteTrace env traceID w2) as [[?|] w3]; unfold eprint; cbn [fst snd traces] in *;
    right; rewrite Ht3, Ht2, Ht1, <- Ht0; by apply (rollback_filter trace).
Qed.



(** [DeleteTracesByGadgetName], by the answers it gets. *)
Lemma DeleteTracesByGadgetName_result env gadget w :
  let client := getRestClient env w in
  let out := DeleteTracesByGadgetName env gadget w in
  match client.1 with
  | Some err => out = (Some err, client.2)
  | None =>
      stderr out.2 = stderr w ∧
      match Delete_Error env (requests client.2) with
      | Some err => out.1 = Some err ∧ traces out.2 = traces w
      | None =>
          out.1 = None ∧
          traces out.2 = filter (λ t, ¬ selectedByGadgetName gadget t) (traces w)
      end
  end.
Proof.
  unfold DeleteTracesByGadgetName, bind. cbn zeta.
  pose proof (getRestClient_frame env w) as (Ht & He & _). cbn zeta in *.
  destruct (getRestClient env w) as [[err|] w1]; cbn [fst snd] in *; [done|].
  unfold request. cbn [fst snd].
  destruct (Delete_Error env (requests w1)); cbn; by rewrite Ht, He.
Qed.

(** X7.  [DeleteTracesByGadgetName] with the gadget name of the request
    undoes a successful [CreateTrace]: when it returns [nil] the store
    is the one from before [CreateTrace] without the traces of that
    gadget, and nothing is written to stderr. *)
Theorem DeleteTracesByGadgetName_removes_created env config w traceID w1 w2 :
  CreateTrace env config w = (Some (traceID, None), w1) →
  DeleteTracesByGadgetName env (GadgetName config) w1 = (None, w2) →
  stderr w2 = stderr w1 ∧
  traces w2 = filter (λ t, ¬ selectedByGadgetName (GadgetName config) t) (traces w).
Proof.
  intros Hcreate Hdelete.
  destruct (CreateTrace_outcome env config w) as (copies & Hcopies & Hout).
  cbn zeta in Hout. rewrite Hcreate in Hout. cbn [fst snd] in Hout.
  destruct Hout as [-> Ht1].
  pose proof (DeleteTracesByGadgetName_result env (GadgetName config) w1) as Hd.
  cbn zeta in Hd. rewrite Hdelete in Hd.
  destruct (getRestClient env w1).1; [done|].
  destruct Hd as [He Hd].
  destruct (Delete_Error env _); cbn [fst snd] in Hd; [by destruct Hd|].
  destruct Hd as [_ Ht2].
  split; [done|].
  rewrite Ht2, Ht1, filter_app.
  assert (filter (λ t, ¬ selectedByGadgetName (GadgetName config) t) copies = [])
    as ->; [|by rewrite app_nil_r].
  clear -Hcopies.
  induction Hcopies as [|t copies [node ->] _ IH]; [done|].
  rewrite filter_cons_False; [exact IH|].
  intros Hns. apply Hns. clear Hns.
  unfold selectedByGadgetName. cbn.
  rewrite bool_decide_eq_true_2 by done.
  rewrite bool_decide_eq_true_2; [done|].
  rewrite lookup_insert_ne by done. apply lookup_insert_eq.
Qed.

Lemma DeleteTracesByGadgetName_removes_created_witness :
  let env := quietEnv ["n1"; "n2"] (λ _, statusOf "Started" "" "") in
  let config := demoConfig "" "Started" in
  let created := CreateTrace env config emptyWorld in
  let deleted := DeleteTracesByGadgetName env (GadgetName config) created.2 in
  stderr deleted.2 = stderr created.2 ∧
  traces deleted.2
  = filter (λ t, ¬ selectedByGadgetName (GadgetName config) t) (traces emptyWorld).
Proof.
  intros env config created deleted.
  apply (DeleteTracesByGadgetName_removes_created env config emptyWorld
           (randomTraceID env emptyWorld).1 created.2 deleted.2);
    vm_compute; reflexivity.
Defined.

End RunAndDelete.

(** *** The operation of a trace *)

Section OperationProperties.

Import utils.

Context (env : Env) (penv : PatchEnv).

Implicit Types (t listed : Trace) (w : World) (operation traceID : string).

Lemma setOperation_idemp operation t :
  setOperation operation (setOperation operation t) = setOperation operation t.
Proof. unfold setOperation. cbn. by rewrite insert_insert_eq. Qed.

Lemma sameObject_selected traceID listed t :
  sameObject listed t → selected traceID t = selected traceID listed.
Proof.
  unfold sameObject, selected. intros [Hm _]%andb_True.
  apply bool_decide_unpack in Hm. by rewrite Hm.
Qed.

Lemma sameObject_setStatus s t : sameObject (setStatus s t) t.
Proof. unfold sameObject. cbn. by rewrite !bool_decide_eq_true_2. Qed.

(** [updateTraceOperation] changes the store only when it returns
    [nil], and then by the patch. *)
Lemma updateTraceOperation_traces listed operation w :
  let out := updateTraceOperation env penv listed operation w in
  stderr out.2 = stderr w ∧
  requests w ≤ requests out.2 ∧
  match out.1 with
  | None => traces out.2 = map (patched operation listed) (traces w)
  | Some _ => traces out.2 = traces w
  end.
Proof.
  cbn zeta. unfold updateTraceOperation, bind.
  pose proof (getRestClient_frame env w) as (Ht & He & _ & _ & Hr). cbn zeta in *.
  destruct (getRestClient env w) as [[err|] w1]; cbn [fst snd] in *; [done|].
  destruct (Marshal_Error penv operation); [done|].
  unfold request. cbn [fst snd].
  destruct (Patch_Error penv (requests w1) listed operation); cbn; rewrite ?Ht, ?He;
    repeat split; lia.
Qed.

(** Once an error is recorded the loop returns an error. *)
Lemma SetTraceOperation_loop_error traceID operation e items w :
  (SetTraceOperation_loop env penv traceID operation (Some e) items w).1 ≠ None.
Proof.
  revert e w. induction items as [|listed items IH]; intros e w; [done|].
  cbn [SetTraceOperation_loop]. unfold bind.
  destruct (updateTraceOperation env penv listed operation w) as [[e'|] w1];
    cbn [fst snd]; apply IH.
Qed.

Lemma selected_setOperation traceID operation t :
  selected traceID (setOperation operation t) = selected traceID t.
Proof. done. Qed.

Lemma SetTraceOperation_loop_frame traceID operation err items w :
  Forall (λ listed, selected traceID listed) items →
  let out := SetTraceOperation_loop env penv traceID operation err items w in
  stderr out.2 = stderr w ∧
  Forall2 (λ old new, new = old ∨ selected traceID old ∧ new = setOperation operation old)
          (traces w) (traces out.2).
Proof.
  cbn zeta. intros Hitems. revert err w.
  induction Hitems as [|listed items Hsel _ IH]; intros err w.
  { cbn. split; [done|]. apply Forall2_same_length_lookup_2; [done|].
    intros i x y Hx Hy. left. congruence. }
  cbn [SetTraceOperation_loop]. unfold bind.
  pose proof (updateTraceOperation_traces listed operation w) as (He & _ & Ht).
  cbn zeta in *.
  destruct (updateTraceOperation env penv listed operation w) as [[e'|] w1];
    cbn [fst snd] in *.
  - destruct (IH (Some (fmt_w penv err +:+ newline +:+
                        "Error updating trace operation for " +:+ traceID +:+ ": " +:+ e'))
                 w1) as [He' Ht'].
    rewrite He', He, <- Ht. done.
  - destruct (IH err w1) as [He' Ht'].
    rewrite He', He. split; [done|].
    rewrite Ht in Ht'. clear -Ht' Hsel.
    apply Forall2_fmap_l in Ht'.
    eapply Forall2_impl; [exact Ht'|].
    intros old new. cbn. unfold patched.
    destruct (sameObject listed old) eqn:Hsame; [|done].
    assert (selected traceID old) as Hold.
    { rewrite (sameObject_selected traceID listed old); [done|by rewrite Hsame]. }
    rewrite setOperation_idemp, selected_setOperation.
    intros [->|[_ ->]]; by right.
Qed.

Lemma SetTraceOperation_loop_nil traceID operation items w w' :
  SetTraceOperation_loop env penv traceID operation None items w = (None, w') →
  traces w' = map (patchedAll operation items) (traces w).
Proof.
  revert w. induction items as [|listed items IH]; intros w.
  { cbn. unfold ret. intros [= <-]. unfold patchedAll. cbn.
    by rewrite map_id. }
  cbn [SetTraceOperation_loop]. unfold bind.
  pose proof (updateTraceOperation_traces listed operation w) as (_ & _ & Ht).
  cbn zeta in *.
  destruct (updateTraceOperation env penv listed operation w) as [[e'|] w1];
    cbn [fst snd] in *.
  - intros Hloop.
    pose proof (SetTraceOperation_loop_error traceID operation
      (fmt_w penv None +:+ newline +:+ "Error updating trace operation for "
       +:+ traceID +:+ ": " +:+ e') items w1) as Herr.
    by rewrite Hloop in Herr.
  - intros Hloop. rewrite (IH _ Hloop), Ht, map_map. done.
Qed.

Lemma patchedAll_patched operation items t :
  patchedAll operation items (setOperation operation t) = setOperation operation t.
Proof.
  unfold patchedAll. induction items as [|listed items IH]; [done|].
  cbn. unfold patched at 2.
  destruct (sameObject listed _); [rewrite setOperation_idemp|]; exact IH.
Qed.

Lemma patchedAll_listed operation items t :
  Exists (λ listed, sameObject listed t) items →
  patchedAll operation items t = setOperation operation t.
Proof.
  unfold patchedAll. induction 1 as [listed items Hs|listed items _ IH]; cbn.
  - unfold patched at 2. destruct (sameObject listed t); [|done].
    apply patchedAll_patched.
  - unfold patched at 2. destruct (sameObject listed t); [|exact IH].
    apply patchedAll_patched.
Qed.

Lemma patchedAll_other operation items t :
  Forall (λ listed, ¬ sameObject listed t) items →
  patchedAll operation items t = t.
Proof.
  unfold patchedAll. induction 1 as [|listed items Hs _ IH]; [done|].
  cbn. unfold patched at 2. by destruct (sameObject listed t).
Qed.

(** The items of a listing that succeeds. *)
Lemma getTraceListFromID_items traceID w :
  (getTraceListFromID env traceID w).1.2 = None →
  ∃ n, (getTraceListFromID env traceID w).1.1
       = map (λ t, setStatus (agent env n t) t) (filter (λ t, selected traceID t) (traces w)).
Proof.
  unfold getTraceListFromID, getTraceListFromOptions, bind.
  pose proof (getRestClient_frame env w) as (Ht & _). cbn zeta in Ht.
  destruct (getRestClient env w) as [[err|] w1]; cbn [fst snd] in *; [done|].
  unfold request. cbn [fst snd].
  destruct (Get_Error env (requests w1)); cbn [fst snd]; [done|].
  cbn [traces]. rewrite Ht.
  destruct (decide _); cbn [fst snd]; [done|]. intros _. by eexists.
Qed.

Lemma getTraceListFromID_selected traceID w :
  Forall (λ listed, selected traceID listed) (getTraceListFromID env traceID w).1.1.
Proof.
  unfold getTraceListFromID, getTraceListFromOptions, bind.
  destruct (getRestClient env w) as [[err|] w1]; cbn [fst snd] in *; [done|].
  unfold request. cbn [fst snd].
  destruct (Get_Error env (requests w1)); cbn [fst snd]; [done|].
  assert (Forall (λ listed, selected traceID listed)
            (map (λ t, setStatus (agent env (requests w1) t) t)
               (filter (λ t, selected traceID t) (traces w1)))) as Hall.
  { apply Forall_fmap, Forall_forall. by intros t [Hs _]%list_elem_of_filter. }
  cbn [traces]. by destruct (decide _).
Qed.

(** X8.  When [SetTraceOperation] returns [nil], some stored copy
    carries the identifier, every stored copy that carries it has the
    annotation [GADGET_OPERATION] set to the operation, and nothing else
    in the store has changed. *)
Theorem SetTraceOperation_nil traceID operation w w' :
  SetTraceOperation env penv traceID operation w = (None, w') →
  stderr w' = stderr w ∧
  traces w'
  = map (λ t, if selected traceID t then setOperation operation t else t) (traces w) ∧
  Exists (λ t, selected traceID t) (traces w).
Proof.
  unfold SetTraceOperation, bind.
  pose proof (getTraceListFromID_frame env traceID w) as (Ht & He & _). cbn zeta in *.
  pose proof (getTraceListFromID_nonempty env traceID w) as Hne.
  pose proof (getTraceListFromID_items traceID w) as Hitems.
  pose proof (getTraceListFromID_selected traceID w) as Hsel.
  destruct (getTraceListFromID env traceID w) as [[items [err|]] w1]; cbn [fst snd] in *;
    [done|].
  destruct (Hitems eq_refl) as [n ->]. specialize (Hne eq_refl).
  intros Hloop.
  pose proof (SetTraceOperation_loop_frame traceID operation None _ w1 Hsel) as [He' _].
  cbn zeta in He'. rewrite Hloop in He'. cbn [snd] in He'.
  split; [by rewrite He', He|].
  split.
  - rewrite (SetTraceOperation_loop_nil _ _ _ _ _ Hloop), Ht.
    apply map_ext_in. intros t Hin%list_elem_of_In.
    destruct (selected traceID t) eqn:Hs.
    + apply patchedAll_listed, Exists_exists.
      exists (setStatus (agent env n t) t). split; [|apply sameObject_setStatus].
      apply list_elem_of_fmap. exists t. split; [done|].
      apply list_elem_of_filter. split; [by rewrite Hs|done].
    + apply patchedAll_other, Forall_forall. intros listed Hl Hsame.
      rewrite Forall_forall in Hsel. specialize (Hsel listed Hl).
      rewrite <- (sameObject_selected traceID listed t Hsame), Hs in Hsel. done.
  - destruct (filter (λ t, selected traceID t) (traces w)) as [|t l] eqn:Hf; [done|].
    apply Exists_exists. exists t.
    assert (t ∈ filter (λ t, selected traceID t) (traces w)) as Hin
      by (rewrite Hf; left).
    apply list_elem_of_filter in Hin as [? ?]. done.
Qed.

(** X9.  Whatever [SetTraceOperation] returns, it creates and deletes
    no copy, writes nothing to stderr, and a stored copy is either
    untouched or a copy with the identifier whose annotation
    [GADGET_OPERATION] was set; when the listing fails, its error is
    returned and no patch is sent. *)
Theorem SetTraceOperation_only_operation traceID operation w :
  let listing := getTraceListFromID env traceID w in
  let out := SetTraceOperation env penv traceID operation w in
  stderr out.2 = stderr w ∧
  Forall2 (λ old new, new = old ∨ selected traceID old ∧ new = setOperation operation old)
          (traces w) (traces out.2) ∧
  ∀ err, listing.1.2 = Some err → out = (Some err, listing.2).
Proof.
  cbn zeta. unfold SetTraceOperation, bind.
  pose proof (getTraceListFromID_frame env traceID w) as (Ht & He & _). cbn zeta in *.
  pose proof (getTraceListFromID_selected traceID w) as Hsel.
  destruct (getTraceListFromID env traceID w) as [[items [err|]] w1]; cbn [fst snd] in *.
  - unfold ret. cbn [fst snd]. rewrite Ht, He. repeat split.
    + apply Forall2_same_length_lookup_2; [done|].
      intros i x y Hx Hy. left. congruence.
    + by intros ? [= ->].
  - pose proof (SetTraceOperation_loop_frame traceID operation None items w1 Hsel)
      as [He' Ht']. cbn zeta in *.
    rewrite He', He, <- Ht. done.
Qed.

End OperationProperties.

Lemma SetTraceOperation_nil_witness :
  let env := utils.quietEnv ["n1"; "n2"] (λ _, utils.statusOf "Started" "" "") in
  let out := utils.SetTraceOperation env utils.quietPatch "abc" "stop" utils.demoWorld in
  utils.stderr out.2 = utils.stderr utils.demoWorld ∧
  utils.traces out.2
  = map (λ t, if utils.selected "abc" t then utils.setOperation "stop" t else t)
        (utils.traces utils.demoWorld) ∧
  Exists (λ t, utils.selected "abc" t) (utils.traces utils.demoWorld).
Proof.
  intros env out.
  apply (SetTraceOperation_nil env utils.quietPatch "abc" "stop" utils.demoWorld out.2).
  vm_compute. reflexivity.
Defined.

(** *** The life of a tracer *)

Section TracerLifecycle.

Import tracer.

Lemma filter_twice {A} (P : A → Prop) `{!∀ x, Decision (P x)} (l : list A) :
  filter P (filter P l) = filter P l.
Proof.
  induction l as [|x l IH]; [done|].
  destruct (decide (P x)).
  - rewrite !filter_cons_True by done. by rewrite IH.
  - by rewrite !filter_cons_False by done.
Qed.

(** X10.  [close] can be called again ([Stop] after the deferred call
    of [Run], say): a second call right after the first changes neither
    the tracer nor the kernel. *)
Theorem close_idempotent (f : Faults) (t : Tracer) (k : Kernel) :
  close f (close f t k).1 (close f t k).2 = close f t k.
Proof.
  destruct t as [c o l1 l2 l3 l4 l5 l6 r], k as [L C R].
  unfold close, CloseLink, objs_Close.
  destruct (objs_Close_err f), l1, l2, l3, l4, l5, l6, o; cbn [fst snd links collections readers
    config objs v4EnterLink v4ExitLink v6EnterLink v6ExitLink tcpDestroySockLink
    tcpRvcStateProcessLink reader]; try done.
  all: by rewrite filter_twice.
Qed.

(** The handles a call got are above every handle in use before it. *)
Ltac release_handles L C :=
  repeat first
    [ rewrite (filter_links_above L) by lia
    | rewrite (filter_collections_above C) by lia
    | rewrite filter_cons_False by (cbn; lia)
    | rewrite filter_cons_True by (cbn; lia)
    | match goal with
      | |- context [decide (?a ≠ ?b)] =>
          first [rewrite (decide_False (P := a ≠ b)) by lia
                |rewrite (decide_True (P := a ≠ b)) by lia]
      end ].

(** X11.  [Stop] on the tracer that [NewTracer] returned detaches every
    program and, when the [Close] of the collection does not fail,
    unloads it, so that links and collections are those from before
    [NewTracer]; the perf reader stays open and stays in the tracer:
    [close] does not touch it. *)
Theorem NewTracer_Stop_leaves_reader (f : Faults) (c : Config) (k : Kernel) t k1 :
  NewTracer f c k = ((Some t, None), k1) →
  objs_Close_err f = None →
  let out := Stop f t k1 in
  links out.2 = links k ∧ collections out.2 = collections k ∧
  readers out.2 = fresh (readers k) :: readers k ∧
  reader out.1 = Some (fresh (readers k)).
Proof.
  destruct f as [f1 f2 f3 fa f5 fc], c as [mm cl ml], k as [L C R].
  intros Hnew Hclose. cbn in Hclose. subst fc. revert Hnew.
  unfold Stop, NewTracer, install, install_mode, LoadAndAssign, attach, NewReader, close,
    objs_Close, CloseLink, fresh. cbn.
  destruct f1; [done|]. destruct f2; [done|]. destruct f3; [done|]. cbn.
  destruct (fa (Kprobe "tcp_v4_connect")); cbn; [done|].
  destruct (fa (Kprobe "tcp_v6_connect")); cbn; [done|].
  destruct cl; cbn.
  - destruct (fa (Tracepoint "tcp" "tcp_destroy_sock")); cbn; [done|].
    destruct (fa (Kprobe "tcp_rcv_state_process")); cbn; [done|].
    destruct f5; cbn; [done|].
    intros [= <- <-]. cbn. split_and!; [by release_handles L C..|done|done].
  - destruct (fa (Kretprobe "tcp_v4_connect")); cbn; [done|].
    destruct (fa (Kretprobe "tcp_v6_connect")); cbn; [done|].
    destruct f5; cbn; [done|].
    intros [= <- <-]. cbn. split_and!; [by release_handles L C..|done|done].
Qed.

Lemma NewTracer_Stop_leaves_reader_witness :
  let f := {| loadTcpconnect_err := None; RewriteConstants_err := None;
              LoadAndAssign_err := None; attach_err := λ _, None;
              NewReader_err := None; objs_Close_err := None |} in
  let c := {| MountnsMap := None; CalculateLatency := true; MinLatency := 0 |} in
  let k := {| links := []; collections := []; readers := [] |} in
  let out := Stop f (default (newTracer c) (NewTracer f c k).1.1) (NewTracer f c k).2 in
  links out.2 = links k ∧ collections out.2 = collections k ∧
  readers out.2 = fresh (readers k) :: readers k ∧
  reader out.1 = Some (fresh (readers k)).
Proof.
  intros f c k.
  apply (NewTracer_Stop_leaves_reader f c k); vm_compute; reflexivity.
Defined.

(** X12.  [Run] on a tracer of the registry ([NewInstance], then
    [SetMountNsMap]): its error is the error of [install] behind
    [installing tracer: ], and when it returns, with or without an
    error, the links are those from before the call, and so are the
    collections unless the [Close] of the collection fails; after a run
    without error the perf reader is still open. *)
Theorem Run_releases (f : Faults) (latency : bool) (min : Z) (mountnsMap : option nat)
    (k : Kernel) :
  let out := Run f latency min (SetMountNsMap mountnsMap NewInstance) k in
  let installed := install f (newTracer {| MountnsMap := mountnsMap;
                                          CalculateLatency := latency;
                                          MinLatency := min |}) k in
  out.1.1 = (λ err, "installing tracer: " +:+ err) <$> installed.1.1 ∧
  links out.2 = links k ∧
  (objs_Close_err f = None → collections out.2 = collections k) ∧
  readers out.2 =
    (if out.1.1 is Some _ then readers k else fresh (readers k) :: readers k).
Proof.
  destruct f as [f1 f2 f3 fa f5 fc], k as [L C R].
  unfold Run, SetMountNsMap, NewInstance, install, install_mode, LoadAndAssign, attach,
    NewReader, close, objs_Close, CloseLink, fresh. cbn.
  destruct f1; [done|]. destruct f2; [done|]. destruct f3; cbn; [done|].
  destruct (fa (Kprobe "tcp_v4_connect")); cbn.
  { destruct fc; cbn; split_and!; try done; try (intros [=]); try intros _;
      by release_handles L C. }
  destruct (fa (Kprobe "tcp_v6_connect")); cbn.
  { destruct fc; cbn; split_and!; try done; try (intros [=]); try intros _;
      by release_handles L C. }
  destruct latency; cbn.
  - destruct (fa (Tracepoint "tcp" "tcp_destroy_sock")); cbn.
    { destruct fc; cbn; split_and!; try done; try (intros [=]); try intros _;
      by release_handles L C. }
    destruct (fa (Kprobe "tcp_rcv_state_process")); cbn.
    { destruct fc; cbn; split_and!; try done; try (intros [=]); try intros _;
      by release_handles L C. }
    destruct f5, fc; cbn; split_and!; try done; try (intros [=]); try intros _;
      by release_handles L C.
  - destruct (fa (Kretprobe "tcp_v4_connect")); cbn.
    { destruct fc; cbn; split_and!; try done; try (intros [=]); try intros _;
      by release_handles L C. }
    destruct (fa (Kretprobe "tcp_v6_connect")); cbn.
    { destruct fc; cbn; split_and!; try done; try (intros [=]); try intros _;
      by release_handles L C. }
    destruct f5, fc; cbn; split_and!; try done; try (intros [=]); try intros _;
      by release_handles L C.
Qed.

End TracerLifecycle.

Section RunComposition.

Import tracer.

Context {Payload : Type} (decode : list Byte.byte → Payload).

(** X13.  The loop of [run] keeps nothing from one read to the next:
    once it has returned or panicked the reads that follow are not
    looked at, and as long as it has not, the events of the reads that
    follow come after those emitted so far, as [run] emits them on
    these reads alone. *)
Theorem run_app (enricher : option (Payload → Payload))
    (reads more : list (ReadError + PerfRecord)) :
  run decode enricher (reads ++ more) =
    match (run decode enricher reads).2 with
    | Blocked =>
        ((run decode enricher reads).1 ++ (run decode enricher more).1,
         (run decode enricher more).2)
    | _ => run decode enricher reads
    end.
Proof.
  induction reads as [|read reads IH]; simpl.
  - by destruct (run decode enricher more).
  - destruct (run_turn decode enricher read); [|done..].
    rewrite IH. by destruct (run decode enricher reads) as [evs []].
Qed.

End RunComposition.

Section CapabilitiesClose.

Import capabilities.

(** X14.  [_CapabilitiesClose] stops at the first closer that fails: it
    returns the error of that closer, and the closers after it are not
    called (what is open is what that closer left). *)
Theorem CapabilitiesClose_first_error (pre post : list Closer) (c : Closer) s s1 s2 err :
  _CapabilitiesClose pre s = (None, s1) →
  c s1 = (Some err, s2) →
  _CapabilitiesClose (pre ++ c :: post) s = (Some err, s2).
Proof.
  revert s. induction pre as [|c0 pre IH]; intros s; simpl.
  - intros [= ->] ->. done.
  - destruct (c0 s) as [[e|] s0]; [done|]. apply IH.
Qed.

Lemma CapabilitiesClose_handle close_err (fd : nat) (hs : list (option nat)) s :
  _CapabilitiesClose (ebpf_Close close_err <$> Some fd :: hs) s =
    match close_err fd with
    | Some err => (Some err, s)
    | None => _CapabilitiesClose (ebpf_Close close_err <$> hs) (s ∖ {[fd]})
    end.
Proof. simpl. by destruct (close_err fd). Qed.

Lemma CapabilitiesClose_nil_handle close_err (hs : list (option nat)) s :
  _CapabilitiesClose (ebpf_Close close_err <$> None :: hs) s =
    _CapabilitiesClose (ebpf_Close close_err <$> hs) s.
Proof. done. Qed.

(** Closing a list of handles: the result, and what it leaves open. *)
Lemma CapabilitiesClose_handles close_err (hs : list (option nat)) s :
  let out := _CapabilitiesClose (ebpf_Close close_err <$> hs) s in
  match out.1 with
  | None =>
      (∀ fd, Some fd ∈ hs → close_err fd = None) ∧
      ∀ fd, fd ∈ out.2 ↔ fd ∈ s ∧ Some fd ∉ hs
  | Some err =>
      ∃ pre fd post, hs = pre ++ Some fd :: post ∧ close_err fd = Some err ∧
        (∀ fd', Some fd' ∈ pre → close_err fd' = None) ∧
        ∀ fd', fd' ∈ out.2 ↔ fd' ∈ s ∧ Some fd' ∉ pre
  end.
Proof.
  cbn zeta. revert s. induction hs as [|h hs IH]; intros s.
  - cbn. split; [by intros ? ?%elem_of_nil|]. intros fd. cbn. rewrite elem_of_nil. tauto.
  - destruct h as [fd0|];
      [rewrite CapabilitiesClose_handle|rewrite CapabilitiesClose_nil_handle].
    + destruct (close_err fd0) as [e|] eqn:Herr; cbn [fst snd].
      * exists [], fd0, hs. split_and!; [done..|by intros ? ?%elem_of_nil|].
        intros fd. rewrite elem_of_nil. tauto.
      * specialize (IH (s ∖ {[fd0]})).
        destruct (_CapabilitiesClose (ebpf_Close close_err <$> hs) (s ∖ {[fd0]}))
          as [[e|] s']; cbn [fst snd] in *.
        -- destruct IH as (pre & fd & post & Hhs & Hfd & Hpre & Hopen).
           exists (Some fd0 :: pre), fd, post. split_and!; [by rewrite Hhs|done| |].
           ++ intros fd' Hin. apply elem_of_cons in Hin as [Heq|?]; [injection Heq as ->|]; auto.
           ++ intros fd'. rewrite Hopen, elem_of_cons. set_solver.
        -- destruct IH as [Hall Hopen]. split.
           ++ intros fd' Hin. apply elem_of_cons in Hin as [Heq|?]; [injection Heq as ->|]; auto.
           ++ intros fd'. rewrite Hopen, elem_of_cons. set_solver.
    + specialize (IH s).
      destruct (_CapabilitiesClose (ebpf_Close close_err <$> hs) s) as [[e|] s'];
        cbn [fst snd] in *.
      * destruct IH as (pre & fd & post & Hhs & Hfd & Hpre & Hopen).
        exists (None :: pre), fd, post. split_and!; [by rewrite Hhs|done| |].
        -- intros fd' Hin. apply elem_of_cons in Hin as [Heq|?]; [discriminate Heq|]; auto.
        -- intros fd'. rewrite Hopen, elem_of_cons. split; [intros [? ?]; split; [done|]; intros [[=]|?]; done|intros [? Hn]; split; [done|]; intros ?; apply Hn; by right].
      * destruct IH as [Hall Hopen]. split.
        -- intros fd' Hin. apply elem_of_cons in Hin as [Heq|?]; [discriminate Heq|]; auto.
        -- intros fd'. rewrite Hopen, elem_of_cons. split; [intros [? ?]; split; [done|]; intros [[=]|?]; done|intros [? Hn]; split; [done|]; intros ?; apply Hn; by right].
Qed.

Lemma CapabilitiesClose_first_error_witness :
  let close_err := λ fd : nat, if decide (fd = 2) then Some "EBADF" else None in
  _CapabilitiesClose (ebpf_Close close_err <$> [Some 1; Some 2; Some 3]) {[1; 2; 3]}
  = (Some "EBADF", {[1; 2; 3]} ∖ {[1]}).
Proof.
  intros close_err.
  apply (CapabilitiesClose_first_error
           [ebpf_Close close_err (Some 1)] [ebpf_Close close_err (Some 3)]
           (ebpf_Close close_err (Some 2)) {[1; 2; 3]} ({[1; 2; 3]} ∖ {[1]}));
    reflexivity.
Defined.

End CapabilitiesClose.

Section CapabilitiesObjects.

Import capabilities.

Lemma CapabilitiesClose_app (a b : list Closer) s :
  _CapabilitiesClose (a ++ b) s =
    match _CapabilitiesClose a s with
    | (Some err, s') => (Some err, s')
    | (None, s') => _CapabilitiesClose b s'
    end.
Proof.
  revert s. induction a as [|c a IH]; intros s; [done|].
  cbn. destruct (c s) as [[err|] s']; [done|]. apply IH.
Qed.

Lemma capabilitiesObjects_Close_handles close_err (o : capabilitiesObjects) s :
  capabilitiesObjects_Close close_err o s =
    _CapabilitiesClose
      (ebpf_Close close_err <$>
         programHandles (capabilitiesPrograms_ o) ++ mapHandles (capabilitiesMaps_ o)) s.
Proof.
  rewrite fmap_app, CapabilitiesClose_app.
  unfold capabilitiesObjects_Close, capabilitiesPrograms_Close, capabilitiesMaps_Close.
  cbn [_CapabilitiesClose].
  destruct (_CapabilitiesClose (ebpf_Close close_err <$> programHandles _) s)
    as [[err|] s']; [done|].
  by destruct (_CapabilitiesClose (ebpf_Close close_err <$> mapHandles _) s') as [[err|] s''].
Qed.

(** X15.  [capabilitiesObjects.Close] closes the six programs and then
    the five maps, in the order of the fields.  It returns [nil] exactly
    when no handle fails to close, and then none of them is open; at the
    first handle that fails it returns that error, the handles before it
    are closed and everything else is as it was: a program that cannot
    be closed leaves every map open. *)
Theorem capabilitiesObjects_Close_outcome close_err (o : capabilitiesObjects) s :
  let handles :=
    programHandles (capabilitiesPrograms_ o) ++ mapHandles (capabilitiesMaps_ o) in
  let out := capabilitiesObjects_Close close_err o s in
  match out.1 with
  | None =>
      (∀ fd, Some fd ∈ handles → close_err fd = None) ∧
      ∀ fd, fd ∈ out.2 ↔ fd ∈ s ∧ Some fd ∉ handles
  | Some err =>
      ∃ pre fd post, handles = pre ++ Some fd :: post ∧ close_err fd = Some err ∧
        (∀ fd', Some fd' ∈ pre → close_err fd' = None) ∧
        ∀ fd', fd' ∈ out.2 ↔ fd' ∈ s ∧ Some fd' ∉ pre
  end.
Proof.
  cbn zeta. rewrite capabilitiesObjects_Close_handles.
  apply (CapabilitiesClose_handles close_err).
Qed.

End CapabilitiesObjects.
